(** * pisequencer: the step clock, the sequencer state and the connection hook

    A shallow embedding of the timing and dispatch core of the pisequencer
    front end:

    - [Sequencer]  : [frontend/src/hooks/useSequencer.ts]
    - [AudioClock] : [frontend/src/utils/AudioClock.ts]
    - [WebSocket]  : [frontend/src/hooks/useWebSocket.ts]

    Conventions.  A JavaScript [number] used as an array index or a step
    counter is a [Z]; a [number] that carries time or tempo is an exact
    rational [Q]: IEEE-754 rounding is outside the model, but for the
    binary64 check of the step duration at the end of [AudioClock].  A React
    [setState(prev => next)] update is the function [prev -> next].  A call
    either returns or throws, see [completion]. *)

From Stdlib Require Import ZArith QArith Qminmax Lia Lqa String Sorted.
From Stdlib Require PrimFloat Uint63.
From stdpp Require Import base option list strings gmap.

#[local] Open Scope Z_scope.

(** The two ways a JavaScript call can complete. *)
Inductive completion (A : Type) : Type :=
| Returns (a : A)
| Throws (name : string).
Arguments Returns {A} a.
Arguments Throws {A} name.

(** [xs[i]] for a JavaScript number [i]: [undefined] (here [None]) unless
    [i] is an index of the array. *)
Definition js_index {A : Type} (xs : list A) (i : Z) : option A :=
  if i <? 0 then None else xs !! Z.to_nat i.

(** Truthiness of [xs[i]] for an array of booleans: [undefined] is falsy. *)
Definition js_truthy (v : option bool) : bool :=
  match v with Some b => b | None => false end.

(* ================================================================== *)
(** * useSequencer.ts *)
(* ================================================================== *)

Module Sequencer.

(** [types/sequencer.ts], [SequencerState]. *)
Record SequencerState : Type := mkState {
  grid : list (list bool);
  isPlaying : bool;
  currentStep : Z;
  bpm : Q
}.

(** [Array(8).fill(null).map(() => Array(16).fill(false))] *)
Definition initializeGrid : list (list bool) :=
  replicate 8 (replicate 16 false).

Definition initialState : SequencerState :=
  {| grid := initializeGrid; isPlaying := false; currentStep := 0;
     bpm := 120%Q |}.

(** The inner [row.map((pad, padIndex) => padIndex === stepIndex ? !pad : pad)]. *)
Definition toggleRow (stepIndex : Z) (row : list bool) : list bool :=
  imap (λ padIndex pad, if Z.of_nat padIndex =? stepIndex then negb pad else pad)
       row.

(** The [newGrid] of [togglePad]:
    [prev.grid.map((row, rowIndex) => rowIndex === channelIndex ? ... : row)]. *)
Definition newGrid (channelIndex stepIndex : Z) (g : list (list bool))
  : list (list bool) :=
  imap (λ rowIndex row,
          if Z.of_nat rowIndex =? channelIndex
          then toggleRow stepIndex row
          else row)
       g.

(** [togglePad]: the state update it installs.  The body has no [throw] and
    calls nothing that throws on arrays of booleans. *)
Definition togglePad (channelIndex stepIndex : Z) (prev : SequencerState)
  : completion SequencerState :=
  Returns {| grid := newGrid channelIndex stepIndex (grid prev);
             isPlaying := isPlaying prev;
             currentStep := currentStep prev; bpm := bpm prev |}.

Definition clearGrid (prev : SequencerState) : SequencerState :=
  {| grid := initializeGrid; isPlaying := isPlaying prev;
     currentStep := currentStep prev; bpm := bpm prev |}.

Definition clearChannel (channelIndex : Z) (prev : SequencerState)
  : SequencerState :=
  let newGrid :=
    imap (λ rowIndex row,
            if Z.of_nat rowIndex =? channelIndex
            then replicate 16 false
            else row)
         (grid prev) in
  {| grid := newGrid; isPlaying := isPlaying prev;
     currentStep := currentStep prev; bpm := bpm prev |}.

(** [getActiveChannels]: map every row to its index or to the sentinel [-1],
    then drop the sentinels. *)
Definition getActiveChannels (state : SequencerState) (stepIndex : Z)
  : list Z :=
  filter (λ channelIndex, channelIndex ≠ -1)
    (imap (λ channelIndex row,
             if js_truthy (js_index row stepIndex)
             then Z.of_nat channelIndex
             else -1)
          (grid state)).

(** The pad at a coordinate, if the coordinate is on the grid. *)
Definition cell (g : list (list bool)) (channel step : Z) : option bool :=
  row ← js_index g channel; js_index row step.

(** The shape every grid of the hook has: 8 channels of 16 steps. *)
Definition grid_wf (g : list (list bool)) : Prop :=
  length g = 8%nat ∧ Forall (λ row, length row = 16%nat) g.

Definition in_bounds (channel step : Z) : Prop :=
  0 ≤ channel < 8 ∧ 0 ≤ step < 16.

(** The initial state with pads 0, 2 and 5 of step 4 switched on. *)
Definition threePads : SequencerState :=
  {| grid := newGrid 2 4 (newGrid 5 4 (newGrid 0 4 initializeGrid));
     isPlaying := false; currentStep := 0; bpm := 120%Q |}.

(** What the specification asks of an out-of-range toggle, in its words:
    the call fails with [InvalidIndexError]. *)
Definition rejects_invalid_index : Prop :=
  ∀ (st : SequencerState) (channel step : Z),
    grid_wf (grid st) → ¬ in_bounds channel step →
    togglePad channel step st = Throws "InvalidIndexError".

End Sequencer.

(* ================================================================== *)
(** * AudioClock.ts *)
(* ================================================================== *)

Module AudioClock.

(** [AudioContext.state] *)
Inductive AudioContextState : Type := suspended | running | closed.

(** The part of an [AudioContext] the clock reads. *)
Record AudioContext : Type := mkContext {
  state : AudioContextState;
  contextTime : Q                       (* [audioContext.currentTime] *)
}.

(** A step subscriber, known by an identifier. *)
Definition Callback : Type := nat.

(** The fields of the class.  [totalSteps] is never assigned after its
    initialiser and is the constant below. *)
Record Clock : Type := mkClock {
  audioContext : option AudioContext;
  isRunning : bool;
  bpm : Q;
  currentStep : Z;
  animationFrameId : option Z;
  startTime : Q;
  nextStepTime : Q;
  stepDuration : Q;
  onStepCallback : option Callback
}.

Definition totalSteps : Z := 16.

(** [new AudioClock()] *)
Definition newClock : Clock :=
  {| audioContext := None; isRunning := false; bpm := 120%Q; currentStep := 0;
     animationFrameId := None; startTime := 0%Q; nextStepTime := 0%Q;
     stepDuration := 0%Q; onStepCallback := None |}.

Definition with_audioContext (v : option AudioContext) (c : Clock) : Clock :=
  mkClock v (isRunning c) (bpm c) (currentStep c) (animationFrameId c)
          (startTime c) (nextStepTime c) (stepDuration c) (onStepCallback c).
Definition with_isRunning (v : bool) (c : Clock) : Clock :=
  mkClock (audioContext c) v (bpm c) (currentStep c) (animationFrameId c)
          (startTime c) (nextStepTime c) (stepDuration c) (onStepCallback c).
Definition with_bpm (v : Q) (c : Clock) : Clock :=
  mkClock (audioContext c) (isRunning c) v (currentStep c) (animationFrameId c)
          (startTime c) (nextStepTime c) (stepDuration c) (onStepCallback c).
Definition with_currentStep (v : Z) (c : Clock) : Clock :=
  mkClock (audioContext c) (isRunning c) (bpm c) v (animationFrameId c)
          (startTime c) (nextStepTime c) (stepDuration c) (onStepCallback c).
Definition with_animationFrameId (v : option Z) (c : Clock) : Clock :=
  mkClock (audioContext c) (isRunning c) (bpm c) (currentStep c) v
          (startTime c) (nextStepTime c) (stepDuration c) (onStepCallback c).
Definition with_startTime (v : Q) (c : Clock) : Clock :=
  mkClock (audioContext c) (isRunning c) (bpm c) (currentStep c)
          (animationFrameId c) v (nextStepTime c) (stepDuration c)
          (onStepCallback c).
Definition with_nextStepTime (v : Q) (c : Clock) : Clock :=
  mkClock (audioContext c) (isRunning c) (bpm c) (currentStep c)
          (animationFrameId c) (startTime c) v (stepDuration c)
          (onStepCallback c).
Definition with_stepDuration (v : Q) (c : Clock) : Clock :=
  mkClock (audioContext c) (isRunning c) (bpm c) (currentStep c)
          (animationFrameId c) (startTime c) (nextStepTime c) v
          (onStepCallback c).
Definition with_onStepCallback (v : option Callback) (c : Clock) : Clock :=
  mkClock (audioContext c) (isRunning c) (bpm c) (currentStep c)
          (animationFrameId c) (startTime c) (nextStepTime c) (stepDuration c) v.

(** The page around the clock: the frame requests that are still pending,
    the next request handle, and every call made so far to a step
    subscriber, oldest first. *)
Record Page : Type := mkPage {
  frames : list Z;
  nextHandle : Z;
  delivered : list (Callback * Z)
}.

Definition newPage : Page :=
  {| frames := []; nextHandle := 1; delivered := [] |}.

Definition requestAnimationFrame (p : Page) : Z * Page :=
  (nextHandle p,
   {| frames := frames p ++ [nextHandle p]; nextHandle := nextHandle p + 1;
      delivered := delivered p |}).

Definition cancelAnimationFrame (handle : Z) (p : Page) : Page :=
  {| frames := filter (λ h, h ≠ handle) (frames p);
     nextHandle := nextHandle p; delivered := delivered p |}.

Definition deliver (cb : Callback) (step : Z) (p : Page) : Page :=
  {| frames := frames p; nextHandle := nextHandle p;
     delivered := delivered p ++ [(cb, step)] |}.

Definition World : Type := (Clock * Page)%type.

(** [calculateStepDuration]: [(60.0 / this.bpm) / 4] *)
Definition calculateStepDuration (c : Clock) : Q := ((60 / bpm c) / 4)%Q.

(** [triggerStep]: call the subscriber, if any, with the current step, then
    advance the counter.  [%] is JavaScript's remainder, [Z.rem].  The
    subscriber is recorded, not run: the one the hook registers updates
    React state and sends a message, and does not call back into the
    clock. *)
Definition triggerStep (w : World) : World :=
  let '(c, p) := w in
  let p1 := match onStepCallback c with
            | Some cb => deliver cb (currentStep c) p
            | None => p
            end in
  (with_currentStep (Z.rem (currentStep c + 1) totalSteps) c, p1).

(** [checkTiming] *)
Definition checkTiming (w : World) : World :=
  let '(c, p) := w in
  if negb (isRunning c) then w
  else match audioContext c with
       | None => w
       | Some ctx =>
         let currentTime := contextTime ctx in
         let '(c1, p1) :=
           if Qle_bool (nextStepTime c) currentTime
           then let '(c', p') := triggerStep (c, p) in
                (with_nextStepTime (nextStepTime c' + stepDuration c')%Q c', p')
           else (c, p) in
         let '(handle, p2) := requestAnimationFrame p1 in
         (with_animationFrameId (Some handle) c1, p2)
       end.

(** [stop].  [if (this.animationFrameId)] is a truthiness test: [null] and
    the handle 0 both skip the cancellation. *)
Definition stop (w : World) : World :=
  let '(c, p) := w in
  let c1 := with_isRunning false c in
  let '(c2, p2) :=
    match animationFrameId c1 with
    | Some handle =>
      if handle =? 0 then (c1, p)
      else (with_animationFrameId None c1, cancelAnimationFrame handle p)
    | None => (c1, p)
    end in
  (with_currentStep 0 c2, p2).

(** [Math.max(80, Math.min(200, bpm))] *)
Definition clampBpm (bpm : Q) : Q := Qmax 80 (Qmin 200 bpm).

(** [setBpm] *)
Definition setBpm (newBpm : Q) (w : World) : World :=
  let '(c, p) := w in
  let clampedBpm := clampBpm newBpm in
  if Qeq_bool clampedBpm (bpm c) then w
  else
    let c1 := with_bpm clampedBpm c in
    if isRunning c1 then
      match audioContext c1 with
      | Some ctx =>
        let oldStepDuration := stepDuration c1 in
        let c2 := with_stepDuration (calculateStepDuration c1) c1 in
        let currentTime := contextTime ctx in
        let timeUntilNextStep := (nextStepTime c2 - currentTime)%Q in
        let adjustmentFactor := (stepDuration c2 / oldStepDuration)%Q in
        (with_nextStepTime
           (currentTime + timeUntilNextStep * adjustmentFactor)%Q c2, p)
      | None => (c1, p)
      end
    else (c1, p).

(** [onStep] *)
Definition onStep (cb : Callback) (w : World) : World :=
  let '(c, p) := w in (with_onStepCallback (Some cb) c, p).

(** What the browser answers during [initialize]: the state of a freshly
    constructed context ([None]: the constructor throws) and the state after
    [resume()] ([None]: the promise rejects). *)
Record Platform : Type := mkPlatform {
  constructed : option AudioContextState;
  resumed : option AudioContextState
}.

(** [initialize]: every exception is caught and turned into [false]. *)
Definition initialize (pf : Platform) (c : Clock) : bool * Clock :=
  let made :=
    match audioContext c with
    | Some ctx => Some ctx
    | None => (λ s, {| state := s; contextTime := 0 |}) <$> constructed pf
    end in
  match made with
  | None => (false, c)
  | Some ctx =>
    let after :=
      match state ctx with
      | suspended =>
        (λ s, {| state := s; contextTime := contextTime ctx |}) <$> resumed pf
      | _ => Some ctx
      end in
    match after with
    | None => (false, with_audioContext (Some ctx) c)
    | Some ctx' =>
      (match state ctx' with running => true | _ => false end,
       with_audioContext (Some ctx') c)
    end
  end.

(** [start], taken as one step: nothing else runs between the test of
    [isRunning] and the code after [await this.initialize()]. *)
Definition start (bpmArg : Q) (startStep : Z) (pf : Platform) (w : World)
  : bool * World :=
  let '(c, p) := w in
  if isRunning c then (true, w)
  else
    let '(initialized, c0) := initialize pf c in
    if negb initialized then (false, (c0, p))
    else
      let c1 := with_bpm (clampBpm bpmArg) c0 in
      let c2 := with_currentStep startStep c1 in
      let c3 := with_isRunning true c2 in
      let c4 := with_stepDuration (calculateStepDuration c3) c3 in
      let now := match audioContext c4 with
                 | Some ctx => contextTime ctx
                 | None => 0%Q
                 end in
      let c5 := with_startTime now c4 in
      let c6 := with_nextStepTime (startTime c5 + stepDuration c5)%Q c5 in
      (true, checkTiming (c6, p)).

(** [destroy] *)
Definition destroy (w : World) : World :=
  let '(c, p) := stop w in
  match audioContext c with
  | Some ctx =>
    match state ctx with
    | closed => (c, p)
    | _ => (with_audioContext None c, p)
    end
  | None => (c, p)
  end.

(** The audio context's clock moves to [now]. *)
Definition advance (now : Q) (w : World) : World :=
  let '(c, p) := w in
  match audioContext c with
  | Some ctx =>
    (with_audioContext (Some {| state := state ctx; contextTime := now |}) c, p)
  | None => w
  end.

(** What can happen to a clock: the page runs a pending frame request at
    some time, a check that was already under way runs regardless of the
    frame table, or a method is called. *)
Inductive Event : Type :=
| Frame (now : Q) (handle : Z)
| RunCheck (now : Q)
| CallStart (bpmArg : Q) (startStep : Z) (pf : Platform)
| CallStop
| CallSetBpm (newBpm : Q)
| CallOnStep (cb : Callback)
| CallDestroy.

Definition is_start (e : Event) : bool :=
  match e with CallStart _ _ _ => true | _ => false end.

Definition exec (e : Event) (w : World) : World :=
  match e with
  | Frame now handle =>
    if bool_decide (handle ∈ frames (w.2))
    then checkTiming (advance now (w.1, cancelAnimationFrame handle (w.2)))
    else w
  | RunCheck now => checkTiming (advance now w)
  | CallStart b s pf => (start b s pf w).2
  | CallStop => stop w
  | CallSetBpm b => setBpm b w
  | CallOnStep cb => onStep cb w
  | CallDestroy => destroy w
  end.

Definition run (es : list Event) (w : World) : World :=
  foldl (λ w e, exec e w) w es.

(** The step calls made while going from [w] to [w']: what [w'] delivered
    beyond the calls [w] had already seen. *)
Definition fired (w w' : World) : list (Callback * Z) :=
  drop (length (delivered (w.2))) (delivered (w'.2)).

(** What holds of every clock the hook can reach: the tempo is in range, the
    step counter is on the grid, and a running clock has its context and a
    step duration computed from its tempo. *)
Definition clock_ok (c : Clock) : Prop :=
  (80 <= bpm c)%Q ∧ (bpm c <= 200)%Q ∧
  0 ≤ currentStep c < totalSteps ∧
  (isRunning c = true →
     is_Some (audioContext c) ∧ (stepDuration c == calculateStepDuration c)%Q).

(** ** The step duration as JavaScript computes it

    The same expression in IEEE-754 binary64, for the whole-number tempos
    the tempo input produces. *)

Definition float_of_Z (z : Z) : PrimFloat.float :=
  PrimFloat.of_uint63 (Uint63.of_Z z).

Definition calculateStepDuration64 (bpm : PrimFloat.float) : PrimFloat.float :=
  PrimFloat.div (PrimFloat.div (float_of_Z 60) bpm) (float_of_Z 4).

(** The whole tempos from 80 to 200. *)
Definition tempos : list Z := map (λ k, 80 + Z.of_nat k) (seq 0 121).

(** Of any two tempos of the list, the larger has the smaller duration. *)
Definition decreasing64 (ts : list Z) : bool :=
  forallb
    (λ t1, forallb
             (λ t2, if t1 <? t2
                    then PrimFloat.ltb (calculateStepDuration64 (float_of_Z t2))
                                       (calculateStepDuration64 (float_of_Z t1))
                    else true)
             ts)
    ts.

(** ** Sample clocks *)

(** A clock at 120 beats a minute, on step 15, whose deadline was at 1
    second, checked only at 5 seconds: 32 step boundaries late. *)
Definition stalledClock : Clock :=
  {| audioContext := Some {| state := running; contextTime := 5 |};
     isRunning := true; bpm := 120%Q; currentStep := 15;
     animationFrameId := Some 7; startTime := 0%Q; nextStepTime := 1%Q;
     stepDuration := (1 # 8)%Q; onStepCallback := Some 0%nat |}.

(** A clock at 120 beats a minute, read at 1 second, a sixteenth of a
    second before its deadline. *)
Definition tickingClock : Clock :=
  {| audioContext := Some {| state := running; contextTime := 1 |};
     isRunning := true; bpm := 120%Q; currentStep := 3;
     animationFrameId := Some 9; startTime := 0%Q;
     nextStepTime := (17 # 16)%Q;
     stepDuration := (1 # 8)%Q; onStepCallback := Some 0%nat |}.

(** The [startStep] of every [start] is a step of the pattern. *)
Definition event_ok (e : Event) : Prop :=
  match e with
  | CallStart _ startStep _ => 0 ≤ startStep < totalSteps
  | _ => True
  end.

(** ** Kinds of events *)

(** The events that are timing checks: frame requests that run, and checks
    already under way. *)
Definition is_check (e : Event) : bool :=
  match e with Frame _ _ | RunCheck _ => true | _ => false end.


Definition is_onStep (e : Event) : bool :=
  match e with CallOnStep _ => true | _ => false end.


(** The steps [n] consecutive firings deliver to [cb], starting on [step]. *)
Definition consecutiveSteps (cb : Callback) (step : Z) (n : nat)
  : list (Callback * Z) :=
  map (λ k, (cb, (step + Z.of_nat k) mod totalSteps)) (seq 0 n).

End AudioClock.

(* ================================================================== *)
(** * useWebSocket.ts *)
(* ================================================================== *)

Module WebSocket.

(** [ReadyState] of react-use-websocket. *)
Inductive ReadyState : Type :=
| UNINSTANTIATED | CONNECTING | OPEN | CLOSING | CLOSED.

Definition ReadyState_eqb (a b : ReadyState) : bool :=
  match a, b with
  | UNINSTANTIATED, UNINSTANTIATED | CONNECTING, CONNECTING | OPEN, OPEN
  | CLOSING, CLOSING | CLOSED, CLOSED => true
  | _, _ => false
  end.

(** [types/sequencer.ts]: the message types the hook sends, and their
    payloads. *)
Inductive MessageType : Type :=
| gpio_trigger | immediate_trigger | stop_channels | ping.

Inductive MessageData : Type :=
| GPIOCommand (channels : list Z) (duration : Z)
| ImmediateTrigger (channel : Z) (duration : Z)
| StopChannelsCommand (channels : list Z)
| PingMessage (timestamp : Z).

Record WebSocketMessage : Type := mkMessage {
  type : MessageType;
  data : MessageData
}.

(** The messages handed to the socket so far, oldest first. *)
Definition Wire : Type := list WebSocketMessage.

(** The state the hook keeps and the calls it has made to [options.onError]. *)
Record Hook : Type := mkHook {
  readyState : ReadyState;
  lastError : option string;
  reported : list string
}.

(** [const isConnected = readyState === ReadyState.OPEN] *)
Definition isConnected (h : Hook) : bool := ReadyState_eqb (readyState h) OPEN.

Definition setLastError (e : string) (h : Hook) : Hook :=
  {| readyState := readyState h; lastError := Some e; reported := reported h |}.

Definition onError (e : string) (h : Hook) : Hook :=
  {| readyState := readyState h; lastError := lastError h;
     reported := reported h ++ [e] |}.

Section Sending.

(** The library's [sendJsonMessage] is not part of the repository: it is a
    parameter.  It maps the wire to the wire after the call and says whether
    the call threw. *)
Variable sendJsonMessage : WebSocketMessage → Wire → Wire * option string.

(** [sendMessage] *)
Definition sendMessage (message : WebSocketMessage) (h : Hook) (w : Wire)
  : bool * Hook * Wire :=
  if negb (isConnected h) then
    (false, setLastError "WebSocket not connected" h, w)
  else
    match sendJsonMessage message w with
    | (w', None) => (true, h, w')
    | (w', Some error) =>
      let errorMessage := String.append "Failed to send message: " error in
      (false, onError errorMessage (setLastError errorMessage h), w')
    end.

(** [triggerGPIO] *)
Definition triggerGPIO (channels : list Z) (duration : Z) (h : Hook) (w : Wire)
  : bool * Hook * Wire :=
  sendMessage {| type := gpio_trigger; data := GPIOCommand channels duration |}
              h w.

(** [triggerImmediate] *)
Definition triggerImmediate (channel : Z) (duration : Z) (h : Hook) (w : Wire)
  : bool * Hook * Wire :=
  sendMessage
    {| type := immediate_trigger; data := ImmediateTrigger channel duration |}
    h w.

(** [stopChannels] *)
Definition stopChannels (channels : option (list Z)) (h : Hook) (w : Wire)
  : bool * Hook * Wire :=
  sendMessage
    {| type := stop_channels;
       data := StopChannelsCommand (default [] channels) |}
    h w.

End Sending.

(** A socket that takes every message: the message joins the wire and
    nothing is thrown. *)
Definition acceptingSocket (m : WebSocketMessage) (w : Wire)
  : Wire * option string := (w ++ [m], None).

(** ** Sample hooks *)

Definition connectedHook : Hook :=
  {| readyState := OPEN; lastError := None; reported := [] |}.

Definition disconnectedHook : Hook :=
  {| readyState := CLOSED; lastError := None; reported := [] |}.

(** ** Reconnection *)

(** The reconnection options of react-use-websocket the hook sets.
    [reconnectInterval] is a number of milliseconds or a function of the
    number of attempts made so far. *)
Inductive ReconnectInterval : Type :=
| Fixed (ms : Z)
| PerAttempt (f : nat → Z).

Record Options : Type := mkOptions {
  shouldReconnect : unit → bool;
  reconnectAttempts : nat;
  reconnectInterval : ReconnectInterval
}.

(** The options literal passed to [useWebSocket]. *)
Definition hookOptions : Options :=
  {| shouldReconnect := λ _, true;
     reconnectAttempts := 1;
     reconnectInterval := Fixed 3000 |}.

Definition intervalFor (i : ReconnectInterval) (attempt : nat) : Z :=
  match i with Fixed ms => ms | PerAttempt f => f attempt end.

(** What react-use-websocket does with these options when the socket
    closes, as the library documents them (the library is a dependency, not
    part of the repository): if [shouldReconnect] agrees and fewer than
    [reconnectAttempts] attempts were made since the socket was last open,
    a new attempt is scheduled after [reconnectInterval]; otherwise none is.
    The result is the delay of the scheduled attempt, if any. *)
Definition onCloseSchedule (o : Options) (reconnectCount : nat) : option Z :=
  if shouldReconnect o tt then
    if (reconnectCount <? reconnectAttempts o)%nat
    then Some (intervalFor (reconnectInterval o) reconnectCount)
    else None
  else None.

(** The delays between the attempts when every one of them fails, starting
    with [reconnectCount] attempts already made; at most [fuel] are listed. *)
Fixpoint retryDelays (o : Options) (reconnectCount fuel : nat) : list Z :=
  match fuel with
  | O => []
  | S fuel' =>
    match onCloseSchedule o reconnectCount with
    | Some delay => delay :: retryDelays o (S reconnectCount) fuel'
    | None => []
    end
  end.

(** What the specification asks of reconnection, in its words: after the
    [n]-th failure in a row another attempt is scheduled, whatever [n], and
    its delay is the base interval multiplied [n] times by a growth factor,
    cut at the cap. *)
Definition exponential_backoff_forever (o : Options) : Prop :=
  ∃ base factor cap : Z, 0 < base ≤ cap ∧ 1 < factor ∧
    ∀ n : nat,
      onCloseSchedule o n = Some (Z.min cap (base * factor ^ Z.of_nat n)).

(** ** The other senders *)

(** [ping]; the time of [Date.now()] is an argument.  The name [ping] is
    taken by the message type. *)
Definition sendPing
    (sendJsonMessage : WebSocketMessage → Wire → Wire * option string)
    (timestamp : Z) (h : Hook) (w : Wire) : bool * Hook * Wire :=
  sendMessage sendJsonMessage
              {| type := ping; data := PingMessage timestamp |} h w.

(** A call of one of the four senders of the hook. *)
Inductive Request : Type :=
| CallTriggerGPIO (channels : list Z) (duration : Z)
| CallTriggerImmediate (channel : Z) (duration : Z)
| CallStopChannels (channels : option (list Z))
| CallPing (timestamp : Z).

Definition call
    (sendJsonMessage : WebSocketMessage → Wire → Wire * option string)
    (r : Request) (h : Hook) (w : Wire) : bool * Hook * Wire :=
  match r with
  | CallTriggerGPIO channels duration =>
    triggerGPIO sendJsonMessage channels duration h w
  | CallTriggerImmediate channel duration =>
    triggerImmediate sendJsonMessage channel duration h w
  | CallStopChannels channels => stopChannels sendJsonMessage channels h w
  | CallPing timestamp => sendPing sendJsonMessage timestamp h w
  end.

(** The type tag a request travels under. *)
Definition requestType (r : Request) : MessageType :=
  match r with
  | CallTriggerGPIO _ _ => gpio_trigger
  | CallTriggerImmediate _ _ => immediate_trigger
  | CallStopChannels _ => stop_channels
  | CallPing _ => ping
  end.

(** ** Receiving *)

(** [types/sequencer.ts], [ConnectionStatus]. *)
Record ConnectionStatus : Type := mkStatus {
  connected : bool;
  gpio_available : bool
}.

(** A message from the server, typed as [types/sequencer.ts] types its
    payloads: a [connection_status] carries a [ConnectionStatus], an [error]
    an [ErrorMessage], and any other type (the acknowledgments, [pong], or
    a type the hook does not know) a payload the hook does not read. *)
Inductive ServerMessage : Type :=
| connection_status_message (status : ConnectionStatus)
| error_message (error : string) (channel : option Z)
| other_message (type : string) (payload : string).

(** [message.type] *)
Definition messageType (m : ServerMessage) : string :=
  match m with
  | connection_status_message _ => "connection_status"
  | error_message _ _ => "error"
  | other_message t _ => t
  end.

(** An [other_message] does not bear one of the two types the hook reads. *)
Definition proper (m : ServerMessage) : Prop :=
  match m with
  | other_message t _ => t ≠ "connection_status" ∧ t ≠ "error"
  | _ => True
  end.

(** A handler registered with [onMessage], known by an identifier. *)
Definition Handler : Type := nat.

(** The receiving side of the hook: the state of the sending side, the
    connection status, the handler table ([messageHandlersRef]) and the calls
    made to handlers so far, oldest first. *)
Record Session : Type := mkSession {
  hook : Hook;
  connectionStatus : option ConnectionStatus;
  messageHandlers : gmap string Handler;
  handled : list (Handler * ServerMessage)
}.

Definition newSession : Session :=
  {| hook := {| readyState := CONNECTING; lastError := None; reported := [] |};
     connectionStatus := None; messageHandlers := ∅; handled := [] |}.

Definition with_hook (h : Hook) (s : Session) : Session :=
  {| hook := h; connectionStatus := connectionStatus s;
     messageHandlers := messageHandlers s; handled := handled s |}.

Section Receiving.

(** What a handler does is not part of the hook: a parameter says whether
    the call of a handler on a message throws, and what. *)
Variable handlerThrows : Handler → ServerMessage → option string.

(** [handleMessage] *)
Definition handleMessage (message : ServerMessage) (s : Session) : Session :=
  let s1 :=
    match message with
    | connection_status_message status =>
      {| hook := hook s; connectionStatus := Some status;
         messageHandlers := messageHandlers s; handled := handled s |}
    | error_message error _ =>
      with_hook (onError error (setLastError error (hook s))) s
    | other_message _ _ => s
    end in
  match messageHandlers s1 !! messageType message with
  | Some handler =>
    let s2 :=
      {| hook := hook s1; connectionStatus := connectionStatus s1;
         messageHandlers := messageHandlers s1;
         handled := handled s1 ++ [(handler, message)] |} in
    match handlerThrows handler message with
    | None => s2
    | Some error =>
      let errorMessage := String.append "Error handling message: " error in
      with_hook (onError errorMessage (setLastError errorMessage (hook s2))) s2
    end
  | None => s1
  end.

End Receiving.

(** [onMessage]: the registration. *)
Definition onMessage (messageType : string) (handler : Handler) (s : Session)
  : Session :=
  {| hook := hook s; connectionStatus := connectionStatus s;
     messageHandlers := <[messageType := handler]> (messageHandlers s);
     handled := handled s |}.

(** The function [onMessage] returns: it forgets whatever handler the type
    has when it is called. *)
Definition unsubscribe (messageType : string) (s : Session) : Session :=
  {| hook := hook s; connectionStatus := connectionStatus s;
     messageHandlers := delete messageType (messageHandlers s);
     handled := handled s |}.

(** The [onOpen] and [onClose] options, with the ready state the library
    shows when it calls them. *)
Definition onOpen (s : Session) : Session :=
  with_hook {| readyState := OPEN; lastError := None;
               reported := reported (hook s) |} s.

Definition onClose (s : Session) : Session :=
  {| hook := {| readyState := CLOSED; lastError := lastError (hook s);
                reported := reported (hook s) |};
     connectionStatus := None;
     messageHandlers := messageHandlers s; handled := handled s |}.

End WebSocket.

(* ================================================================== *)
(** * useSequencer.ts, with its clock *)
(* ================================================================== *)

Module SequencerHook.

(** The mounted hook: its React state and the clock held in [clockRef]. *)
Record Mounted : Type := mkMounted {
  state : Sequencer.SequencerState;
  clockRef : AudioClock.World
}.

(** The subscriber the mount effect registers with the clock. *)
Definition hookSubscriber : AudioClock.Callback := 0%nat.

(** The hook once its mount effect has run: the initial state, a new clock
    and the hook's subscriber registered with it. *)
Definition mounted : Mounted :=
  {| state := Sequencer.initialState;
     clockRef := AudioClock.onStep hookSubscriber
                   (AudioClock.newClock, AudioClock.newPage) |}.

(** [setState(prev => ({ ...prev, currentStep: step }))], the first thing
    the subscriber does. *)
Definition setCurrentStep (step : Z) (prev : Sequencer.SequencerState)
  : Sequencer.SequencerState :=
  {| Sequencer.grid := Sequencer.grid prev;
     Sequencer.isPlaying := Sequencer.isPlaying prev;
     Sequencer.currentStep := step;
     Sequencer.bpm := Sequencer.bpm prev |}.

Definition setPlaying (playing : bool) (prev : Sequencer.SequencerState)
  : Sequencer.SequencerState :=
  {| Sequencer.grid := Sequencer.grid prev;
     Sequencer.isPlaying := playing;
     Sequencer.currentStep := 0;
     Sequencer.bpm := Sequencer.bpm prev |}.

(** [togglePad], [clearGrid], [clearChannel]: updates of the state alone. *)
Definition togglePad (channelIndex stepIndex : Z) (m : Mounted) : Mounted :=
  match Sequencer.togglePad channelIndex stepIndex (state m) with
  | Returns next => {| state := next; clockRef := clockRef m |}
  | Throws _ => m
  end.

Definition clearGrid (m : Mounted) : Mounted :=
  {| state := Sequencer.clearGrid (state m); clockRef := clockRef m |}.

Definition clearChannel (channelIndex : Z) (m : Mounted) : Mounted :=
  {| state := Sequencer.clearChannel channelIndex (state m);
     clockRef := clockRef m |}.

(** [setBpm] *)
Definition setBpm (bpm : Q) (m : Mounted) : Mounted :=
  let clampedBpm := Qmax 80 (Qmin 200 bpm) in
  {| state := {| Sequencer.grid := Sequencer.grid (state m);
                 Sequencer.isPlaying := Sequencer.isPlaying (state m);
                 Sequencer.currentStep := Sequencer.currentStep (state m);
                 Sequencer.bpm := clampedBpm |};
     clockRef := AudioClock.setBpm clampedBpm (clockRef m) |}.

(** [play], taken as one step like [AudioClock.start]. *)
Definition play (pf : AudioClock.Platform) (m : Mounted) : Mounted :=
  if Sequencer.isPlaying (state m) then m
  else
    let '(started, clock) :=
      AudioClock.start (Sequencer.bpm (state m)) 0 pf (clockRef m) in
    if started
    then {| state := setPlaying true (state m); clockRef := clock |}
    else {| state := state m; clockRef := clock |}.

(** [stop] *)
Definition stop (m : Mounted) : Mounted :=
  if negb (Sequencer.isPlaying (state m)) then m
  else {| state := setPlaying false (state m);
          clockRef := AudioClock.stop (clockRef m) |}.

(** [togglePlayback] *)
Definition togglePlayback (pf : AudioClock.Platform) (m : Mounted) : Mounted :=
  if Sequencer.isPlaying (state m) then stop m else play pf m.


(** The page runs a frame request of the clock.  Every step the clock
    delivers reaches the hook's subscriber, which stores it as the current
    step and passes it on to the callback set with [setStepCallback]; the
    steps passed on are the second component. *)
Definition frame (now : Q) (handle : Z) (m : Mounted) : Mounted * list Z :=
  let clock := AudioClock.exec (AudioClock.Frame now handle) (clockRef m) in
  let steps := (λ call : AudioClock.Callback * Z, call.2)
                 <$> AudioClock.fired (clockRef m) clock in
  ({| state := foldl (λ st step, setCurrentStep step st) (state m) steps;
      clockRef := clock |},
   steps).

(** What a user and the page can do to the mounted hook. *)
Inductive Action : Type :=
| DoTogglePad (channelIndex stepIndex : Z)
| DoClearGrid
| DoClearChannel (channelIndex : Z)
| DoSetBpm (bpm : Q)
| DoPlay (pf : AudioClock.Platform)
| DoStop
| DoTogglePlayback (pf : AudioClock.Platform)
| DoFrame (now : Q) (handle : Z).

Definition act (a : Action) (m : Mounted) : Mounted :=
  match a with
  | DoTogglePad c s => togglePad c s m
  | DoClearGrid => clearGrid m
  | DoClearChannel c => clearChannel c m
  | DoSetBpm b => setBpm b m
  | DoPlay pf => play pf m
  | DoStop => stop m
  | DoTogglePlayback pf => togglePlayback pf m
  | DoFrame now handle => (frame now handle m).1
  end.


(** The hook and its clock agree: same playing flag, same tempo; the
    hook's subscriber is the clock's; the step the hook shows is the one the
    clock fired last, so the clock is one step ahead of it, or both are on
    step 0; a hook that is not playing shows step 0; the grid has its shape;
    and the clock is one a new clock can become ([AudioClock.clock_ok]). *)
Definition in_step (m : Mounted) : Prop :=
  let st := state m in
  let c := (clockRef m).1 in
  Sequencer.isPlaying st = AudioClock.isRunning c
  ∧ (Sequencer.bpm st == AudioClock.bpm c)%Q
  ∧ AudioClock.onStepCallback c = Some hookSubscriber
  ∧ 0 ≤ Sequencer.currentStep st < 16
  ∧ ((AudioClock.currentStep c = 0 ∧ Sequencer.currentStep st = 0)
     ∨ AudioClock.currentStep c = (Sequencer.currentStep st + 1) mod 16)
  ∧ (Sequencer.isPlaying st = false →
     Sequencer.currentStep st = 0 ∧ AudioClock.currentStep c = 0)
  ∧ Sequencer.grid_wf (Sequencer.grid st)
  ∧ AudioClock.clock_ok c.

End SequencerHook.

(* ================================================================== *)
(** * App.tsx, with Pad and Controls *)
(* ================================================================== *)

Module App.

(** The fields of a [KeyboardEvent] the handler reads. *)
Record KeyboardEvent : Type := mkKey {
  code : string;
  metaKey : bool;
  ctrlKey : bool;
  altKey : bool;
  shiftKey : bool
}.

Definition sequencerKeys : list string :=
  ["KeyQ"; "KeyW"; "KeyE"; "KeyR"; "KeyT"; "KeyY"; "KeyU"; "KeyI"; "Space"].

(** The object literal [keyChannelMap], read as a map from key codes.  (No
    key code is the name of a property an object literal inherits.) *)
Definition keyChannelMap : gmap string Z :=
  list_to_map
    [("KeyQ", 0); ("KeyW", 1); ("KeyE", 2); ("KeyR", 3);
     ("KeyT", 4); ("KeyY", 5); ("KeyU", 6); ("KeyI", 7)].

(** The running application: the sequencer hook, the connection hook and
    the wire. *)
Record Running : Type := mkRunning {
  sequencer : SequencerHook.Mounted;
  connection : WebSocket.Hook;
  wire : WebSocket.Wire
}.

(** The application once mounted, its socket still connecting. *)
Definition started : Running :=
  {| sequencer := SequencerHook.mounted;
     connection := WebSocket.hook WebSocket.newSession;
     wire := [] |}.

Definition with_sequencer (m : SequencerHook.Mounted) (a : Running) : Running :=
  {| sequencer := m; connection := connection a; wire := wire a |}.

Section Dispatch.

Variable sendJsonMessage
  : WebSocket.WebSocketMessage → WebSocket.Wire → WebSocket.Wire * option string.

(** The outcome of a sender, stored; the boolean it answers is dropped, as
    every caller in [App] drops it. *)
Definition sent (r : bool * WebSocket.Hook * WebSocket.Wire) (a : Running)
  : Running :=
  {| sequencer := sequencer a; connection := r.1.2; wire := r.2 |}.

(** [handleStep] *)
Definition handleStep (step : Z) (a : Running) : Running :=
  let activeChannels :=
    Sequencer.getActiveChannels (SequencerHook.state (sequencer a)) step in
  if (0 <? length activeChannels)%nat
  then sent (WebSocket.triggerGPIO sendJsonMessage activeChannels 50
                                   (connection a) (wire a)) a
  else a.

(** [handlePadToggle] *)
Definition handlePadToggle (channelIndex stepIndex : Z) (a : Running)
  : Running :=
  with_sequencer (SequencerHook.togglePad channelIndex stepIndex (sequencer a))
                 a.

(** [handleChannelTrigger] *)
Definition handleChannelTrigger (channelIndex : Z) (a : Running) : Running :=
  sent (WebSocket.triggerImmediate sendJsonMessage channelIndex 50
                                   (connection a) (wire a)) a.

(** [handleClick] of [Pad], given the two modifier keys it reads. *)
Definition handleClick (meta ctrl : bool) (channelIndex stepIndex : Z)
    (a : Running) : Running :=
  if meta || ctrl
  then handlePadToggle channelIndex stepIndex a
  else handleChannelTrigger channelIndex a.

(** [handleKeyDown]; the first component says whether [preventDefault] was
    called. *)
Definition handleKeyDown (e : KeyboardEvent) (pf : AudioClock.Platform)
    (a : Running) : bool * Running :=
  let prevented :=
    bool_decide (code e ∈ sequencerKeys)
    && negb (metaKey e) && negb (ctrlKey e)
    && negb (altKey e) && negb (shiftKey e) in
  if String.eqb (code e) "Space"
  then (prevented,
        with_sequencer (SequencerHook.togglePlayback pf (sequencer a)) a)
  else
    match keyChannelMap !! code e with
    | Some channel =>
      (prevented,
       sent (WebSocket.triggerImmediate sendJsonMessage channel 50
                                        (connection a) (wire a)) a)
    | None => (prevented, a)
    end.

(** The page runs a frame request: the clock checks, and every step it
    delivers goes through the hook's subscriber to [handleStep]. *)
Definition animationFrame (now : Q) (handle : Z) (a : Running) : Running :=
  let '(m, steps) := SequencerHook.frame now handle (sequencer a) in
  foldl (λ a step, handleStep step a) (with_sequencer m a) steps.

(** What happens to the application: keys, clicks on pads, the tempo
    input ([handleBpmChange] hands over a whole number), the play button,
    frames, and the library moving the ready state of the socket. *)
Inductive Event : Type :=
| KeyDown (e : KeyboardEvent) (pf : AudioClock.Platform)
| Click (meta ctrl : bool) (channelIndex stepIndex : Z)
| BpmChange (newBpm : Z)
| PlayToggle (pf : AudioClock.Platform)
| AnimationFrame (now : Q) (handle : Z)
| ReadyStateChange (readyState : WebSocket.ReadyState).

Definition exec (ev : Event) (a : Running) : Running :=
  match ev with
  | KeyDown e pf => (handleKeyDown e pf a).2
  | Click meta ctrl c s => handleClick meta ctrl c s a
  | BpmChange b =>
    with_sequencer (SequencerHook.setBpm (inject_Z b) (sequencer a)) a
  | PlayToggle pf =>
    with_sequencer (SequencerHook.togglePlayback pf (sequencer a)) a
  | AnimationFrame now handle => animationFrame now handle a
  | ReadyStateChange rs =>
    {| sequencer := sequencer a;
       connection := {| WebSocket.readyState := rs;
                        WebSocket.lastError := WebSocket.lastError (connection a);
                        WebSocket.reported := WebSocket.reported (connection a) |};
       wire := wire a |}
  end.

Definition run (evs : list Event) (a : Running) : Running :=
  foldl (λ a ev, exec ev a) a evs.

End Dispatch.

(** Pads exist for the cells of the grid only: a click carries a
    coordinate of the 8 by 16 grid. *)
Definition event_ok (ev : Event) : Prop :=
  match ev with
  | Click _ _ channelIndex stepIndex =>
    Sequencer.in_bounds channelIndex stepIndex
  | _ => True
  end.

(** A socket that, whatever else it does, puts nothing on the wire but the
    message it was given, once or not at all. *)
Definition faithful
    (socket : WebSocket.WebSocketMessage → WebSocket.Wire
              → WebSocket.Wire * option string) : Prop :=
  ∀ m w, (socket m w).1 = w ∨ (socket m w).1 = w ++ [m].

(** A trigger command in good shape: a batch names at least one channel,
    in ascending order, an immediate trigger names one; every channel is one
    of the 8; the duration is 50 ms. *)
Definition command_ok (m : WebSocket.WebSocketMessage) : Prop :=
  match WebSocket.type m, WebSocket.data m with
  | WebSocket.gpio_trigger, WebSocket.GPIOCommand channels duration =>
    channels ≠ [] ∧ StronglySorted Z.lt channels
    ∧ Forall (λ ch, 0 ≤ ch < 8) channels ∧ duration = 50
  | WebSocket.immediate_trigger, WebSocket.ImmediateTrigger channel duration =>
    0 ≤ channel < 8 ∧ duration = 50
  | _, _ => False
  end.

(** What the events keep true: the sequencer hook agrees with its clock
    and every command on the wire is in good shape. *)
Definition shipshape (a : Running) : Prop :=
  SequencerHook.in_step (sequencer a) ∧ Forall command_ok (wire a).

End App.

(* ================================================================== *)
(** * Array reads *)
(* ================================================================== *)

Lemma js_index_of_nat {A : Type} (xs : list A) (n : nat) :
  js_index xs (Z.of_nat n) = xs !! n.
Proof.
  unfold js_index. destruct (Z.ltb_spec (Z.of_nat n) 0); [lia|].
  by rewrite Nat2Z.id.
Qed.

Lemma js_index_Some {A : Type} (xs : list A) (i : Z) (x : A) :
  js_index xs i = Some x ↔ ∃ n : nat, i = Z.of_nat n ∧ xs !! n = Some x.
Proof.
  split.
  - unfold js_index. destruct (Z.ltb_spec i 0); [done|].
    intros Hx. exists (Z.to_nat i). split; [lia|done].
  - intros (n & -> & Hx). by rewrite js_index_of_nat.
Qed.

Lemma js_index_range {A : Type} (xs : list A) (i : Z) (x : A) :
  js_index xs i = Some x → 0 ≤ i < Z.of_nat (length xs).
Proof.
  intros (n & -> & Hx)%js_index_Some. apply lookup_lt_Some in Hx. lia.
Qed.

Lemma js_index_in_range {A : Type} (xs : list A) (i : Z) :
  0 ≤ i < Z.of_nat (length xs) → is_Some (js_index xs i).
Proof.
  intros Hi. unfold js_index. destruct (Z.ltb_spec i 0); [lia|].
  apply lookup_lt_is_Some. lia.
Qed.

(* ================================================================== *)
(** * The pad grid *)
(* ================================================================== *)

Section GridFacts.
Import Sequencer.

Implicit Types (g : list (list bool)) (row : list bool).

Lemma toggleRow_lookup (s : Z) row (j : nat) :
  toggleRow s row !! j
  = (λ pad : bool, if Z.of_nat j =? s then negb pad else pad) <$> row !! j.
Proof. unfold toggleRow. by rewrite list_lookup_imap. Qed.

Lemma toggleRow_length (s : Z) row : length (toggleRow s row) = length row.
Proof. unfold toggleRow. by rewrite length_imap. Qed.

Lemma toggleRow_twice (s : Z) row : toggleRow s (toggleRow s row) = row.
Proof.
  apply list_eq. intros j. rewrite !toggleRow_lookup.
  destruct (row !! j) as [pad|]; simpl; [|done].
  destruct (Z.of_nat j =? s); [|done]. by rewrite negb_involutive.
Qed.

Lemma toggleRow_outside (s : Z) row :
  ¬ (0 ≤ s < Z.of_nat (length row)) → toggleRow s row = row.
Proof.
  intros Hs. apply list_eq. intros j. rewrite toggleRow_lookup.
  destruct (row !! j) as [pad|] eqn:Hj; simpl; [|done].
  apply lookup_lt_Some in Hj.
  destruct (Z.eqb_spec (Z.of_nat j) s); [lia|done].
Qed.

Lemma newGrid_lookup (c s : Z) g (i : nat) :
  newGrid c s g !! i
  = (λ row, if Z.of_nat i =? c then toggleRow s row else row) <$> g !! i.
Proof. unfold newGrid. by rewrite list_lookup_imap. Qed.

Lemma newGrid_length (c s : Z) g : length (newGrid c s g) = length g.
Proof. unfold newGrid. by rewrite length_imap. Qed.

Lemma newGrid_twice (c s : Z) g : newGrid c s (newGrid c s g) = g.
Proof.
  apply list_eq. intros i. rewrite !newGrid_lookup.
  destruct (g !! i) as [row|]; simpl; [|done].
  destruct (Z.of_nat i =? c); [|done]. by rewrite toggleRow_twice.
Qed.

Lemma newGrid_wf (c s : Z) g : grid_wf g → grid_wf (newGrid c s g).
Proof.
  intros [Hlen Hrows]. split; [by rewrite newGrid_length|].
  apply Forall_lookup. intros i row. rewrite newGrid_lookup.
  intros (row0 & Hrow0 & ->)%fmap_Some.
  pose proof (Forall_lookup_1 _ _ _ _ Hrows Hrow0) as H16. simpl in H16.
  destruct (Z.of_nat i =? c); [by rewrite toggleRow_length|done].
Qed.

Lemma initializeGrid_wf : grid_wf initializeGrid.
Proof. split; [done|]. unfold initializeGrid. by repeat constructor. Qed.

Lemma clearChannel_wf (c : Z) (st : SequencerState) :
  grid_wf (grid st) → grid_wf (grid (clearChannel c st)).
Proof.
  intros [Hlen Hrows]. unfold clearChannel. simpl.
  split; [by rewrite length_imap|].
  apply Forall_lookup. intros i row. rewrite list_lookup_imap.
  intros (row0 & Hrow0 & ->)%fmap_Some.
  pose proof (Forall_lookup_1 _ _ _ _ Hrows Hrow0) as H16. simpl in H16.
  by destruct (Z.of_nat i =? c).
Qed.

Lemma newGrid_outside (c s : Z) g :
  grid_wf g → ¬ in_bounds c s → newGrid c s g = g.
Proof.
  intros [Hlen Hrows] Hout. apply list_eq. intros i. rewrite newGrid_lookup.
  destruct (g !! i) as [row|] eqn:Hi; simpl; [|done].
  pose proof (Forall_lookup_1 _ _ _ _ Hrows Hi) as H16. simpl in H16.
  apply lookup_lt_Some in Hi.
  destruct (Z.eqb_spec (Z.of_nat i) c) as [Hc|]; [|done].
  f_equal. apply toggleRow_outside. unfold in_bounds in Hout. lia.
Qed.

Lemma cell_Some g (c s : Z) (b : bool) :
  cell g c s = Some b ↔
  ∃ (i j : nat) row,
    c = Z.of_nat i ∧ s = Z.of_nat j ∧ g !! i = Some row ∧ row !! j = Some b.
Proof.
  unfold cell. split.
  - intros (row & (i & -> & Hi)%js_index_Some
                & (j & -> & Hj)%js_index_Some)%bind_Some.
    by exists i, j, row.
  - intros (i & j & row & -> & -> & Hi & Hj).
    rewrite js_index_of_nat, Hi. simpl. by rewrite js_index_of_nat.
Qed.

Lemma cell_in_bounds g (c s : Z) :
  grid_wf g → in_bounds c s → is_Some (cell g c s).
Proof.
  intros [Hlen Hrows] [Hc Hs]. unfold cell.
  destruct (js_index_in_range g c) as [row Hrow]; [lia|].
  rewrite Hrow. simpl.
  apply js_index_Some in Hrow as (i & -> & Hi).
  pose proof (Forall_lookup_1 _ _ _ _ Hrows Hi) as H16. simpl in H16.
  apply js_index_in_range. lia.
Qed.

Lemma js_index_toggleRow (s s' : Z) row :
  js_index (toggleRow s row) s'
  = (λ pad : bool, if s' =? s then negb pad else pad) <$> js_index row s'.
Proof.
  unfold js_index. destruct (Z.ltb_spec s' 0); [done|].
  rewrite toggleRow_lookup. by rewrite Z2Nat.id by done.
Qed.

Lemma js_index_newGrid (c s c' : Z) g :
  js_index (newGrid c s g) c'
  = (λ row, if c' =? c then toggleRow s row else row) <$> js_index g c'.
Proof.
  unfold js_index. destruct (Z.ltb_spec c' 0); [done|].
  rewrite newGrid_lookup. by rewrite Z2Nat.id by done.
Qed.

Lemma cell_newGrid (c s c' s' : Z) g :
  cell (newGrid c s g) c' s'
  = (λ pad : bool, if (c' =? c) && (s' =? s) then negb pad else pad)
      <$> cell g c' s'.
Proof.
  unfold cell. rewrite js_index_newGrid.
  destruct (js_index g c') as [row|]; simpl; [|done].
  destruct (c' =? c); simpl.
  - apply js_index_toggleRow.
  - by destruct (js_index row s').
Qed.

End GridFacts.

Section ToggleFacts.
Import Sequencer.

(** C10. For every coordinate off the grid (channel outside [0,8) or step
    outside [0,16)), [togglePad] returns normally and the state it returns
    is the state it was given: grid, [isPlaying], [currentStep] and [bpm]
    are all unchanged. *)
Theorem togglePad_out_of_bounds_noop
    (st : SequencerState) (channel step : Z) :
  grid_wf (grid st) →
  ¬ (0 ≤ channel < 8) ∨ ¬ (0 ≤ step < 16) →
  togglePad channel step st = Returns st.
Proof.
  intros Hwf Hout. unfold togglePad. rewrite newGrid_outside; [|done|].
  - by destruct st.
  - unfold in_bounds. tauto.
Qed.

(** Channel 8 and step -1 on the initial state. *)
Lemma togglePad_out_of_bounds_noop_witness :
  togglePad 8 0 initialState = Returns initialState
  ∧ togglePad 3 (-1) initialState = Returns initialState.
Proof.
  split.
  - apply (togglePad_out_of_bounds_noop initialState 8 0);
      [apply initializeGrid_wf | left; lia].
  - apply (togglePad_out_of_bounds_noop initialState 3 (-1));
      [apply initializeGrid_wf | right; lia].
Defined.

(** C1, as the specification words it, does not hold: on the initial state
    the toggle of channel 8, step 0 returns the state instead of failing
    with [InvalidIndexError]. *)
Lemma togglePad_does_not_reject :
  togglePad 8 0 initialState = Returns initialState
  ∧ ¬ rejects_invalid_index.
Proof.
  split; [reflexivity|].
  intros Hrej.
  specialize (Hrej initialState 8 0 initializeGrid_wf).
  assert (Hout : ¬ in_bounds 8 0) by (unfold in_bounds; lia).
  specialize (Hrej Hout). discriminate Hrej.
Qed.

(** C1, amended. For every coordinate off the grid, [togglePad] does not
    fail: it returns normally, with no error of any name; and it does not
    clamp the indices: no pad of the grid is flipped, in particular the pad
    at the nearest coordinate on the grid keeps its value. *)
Theorem togglePad_out_of_bounds_returns_unclamped
    (st : SequencerState) (channel step : Z) :
  grid_wf (grid st) →
  ¬ (0 ≤ channel < 8) ∨ ¬ (0 ≤ step < 16) →
  (∀ name, togglePad channel step st ≠ Throws name)
  ∧ ∃ st', togglePad channel step st = Returns st'
      ∧ (∀ c s, cell (grid st') c s = cell (grid st) c s)
      ∧ cell (grid st') (Z.max 0 (Z.min 7 channel)) (Z.max 0 (Z.min 15 step))
        = cell (grid st) (Z.max 0 (Z.min 7 channel)) (Z.max 0 (Z.min 15 step)).
Proof.
  intros Hwf Hout. split; [done|].
  eexists. split; [reflexivity|]. simpl.
  assert (Hsame : newGrid channel step (grid st) = grid st).
  { apply newGrid_outside; [done|]. unfold in_bounds. tauto. }
  rewrite Hsame. done.
Qed.

(** Channel 8 on the initial state: nothing is thrown, and pad (7, 0), the
    nearest one on the grid, is not flipped. *)
Lemma togglePad_out_of_bounds_returns_unclamped_witness :
  (∀ name, togglePad 8 0 initialState ≠ Throws name)
  ∧ ∃ st', togglePad 8 0 initialState = Returns st'
      ∧ (∀ c s, cell (grid st') c s = cell (grid initialState) c s)
      ∧ cell (grid st') 7 0 = cell (grid initialState) 7 0.
Proof.
  apply (togglePad_out_of_bounds_returns_unclamped initialState 8 0);
    [apply initializeGrid_wf | left; lia].
Defined.

(** C9. For every coordinate on the grid and every state, [togglePad]
    applied twice at that coordinate gives the state back; applied once it
    flips the pad at the coordinate, leaves every other pad and the shape of
    the grid as they were, and leaves [isPlaying], [currentStep] and [bpm]
    unchanged. *)
Theorem togglePad_involution_and_frame
    (st : SequencerState) (channel step : Z) :
  grid_wf (grid st) → 0 ≤ channel < 8 → 0 ≤ step < 16 →
  ∃ st1,
    togglePad channel step st = Returns st1
    ∧ togglePad channel step st1 = Returns st
    ∧ (∃ b, cell (grid st) channel step = Some b
            ∧ cell (grid st1) channel step = Some (negb b))
    ∧ (∀ c s, (c, s) ≠ (channel, step) →
              cell (grid st1) c s = cell (grid st) c s)
    ∧ grid_wf (grid st1)
    ∧ isPlaying st1 = isPlaying st
    ∧ currentStep st1 = currentStep st
    ∧ bpm st1 = bpm st.
Proof.
  intros Hwf Hc Hs. eexists. split; [reflexivity|]. simpl.
  split; [|split; [|split; [|split]]].
  - unfold togglePad. simpl. rewrite newGrid_twice. by destruct st.
  - destruct (cell_in_bounds (grid st) channel step Hwf) as [b Hb]; [done|].
    exists b. split; [done|].
    rewrite cell_newGrid, Hb. simpl. by rewrite !Z.eqb_refl.
  - intros c s Hne. rewrite cell_newGrid.
    destruct (Z.eqb_spec c channel) as [->|]; simpl.
    + destruct (Z.eqb_spec s step) as [->|]; [done|].
      by destruct (cell _ _ _).
    + by destruct (cell _ _ _).
  - by apply newGrid_wf.
  - done.
Qed.

(** Pad (2, 5) of the initial state. *)
Lemma togglePad_involution_and_frame_witness :
  ∃ st1,
    togglePad 2 5 initialState = Returns st1
    ∧ togglePad 2 5 st1 = Returns initialState
    ∧ (∃ b, cell (grid initialState) 2 5 = Some b
            ∧ cell (grid st1) 2 5 = Some (negb b))
    ∧ (∀ c s, (c, s) ≠ (2, 5) →
              cell (grid st1) c s = cell (grid initialState) c s)
    ∧ grid_wf (grid st1)
    ∧ isPlaying st1 = isPlaying initialState
    ∧ currentStep st1 = currentStep initialState
    ∧ bpm st1 = bpm initialState.
Proof.
  apply (togglePad_involution_and_frame initialState 2 5);
    [apply initializeGrid_wf | lia | lia].
Defined.

End ToggleFacts.

(* ================================================================== *)
(** * Active channels of a step *)
(* ================================================================== *)

Section ActiveChannels.
Import Sequencer.

(** A list that marks every position with its index, shifted by [k], or
    with the sentinel [-1]: once the sentinels are dropped the marks are in
    increasing order and none is below the shift. *)
Lemma marks_sorted {A : Type} (rows : list A) :
  ∀ (k : nat) (f : nat → A → Z),
    (∀ i row, f i row = -1 ∨ f i row = Z.of_nat (k + i)) →
    StronglySorted Z.lt (filter (λ ch, ch ≠ -1) (imap f rows))
    ∧ Forall (λ ch, Z.of_nat k ≤ ch) (filter (λ ch, ch ≠ -1) (imap f rows)).
Proof.
  induction rows as [|row rows IH]; intros k f Hf.
  - split; constructor.
  - rewrite imap_cons.
    destruct (IH (S k) (f ∘ S)) as [Hsorted Hlow].
    { intros i r. simpl. rewrite <- Nat.add_succ_r. apply Hf. }
    assert (Hlow' : Forall (λ ch, Z.of_nat k < ch)
                      (filter (λ ch, ch ≠ -1) (imap (f ∘ S) rows))).
    { eapply Forall_impl; [exact Hlow|]. simpl. intros ch Hch. lia. }
    destruct (Hf 0%nat row) as [Hmark|Hmark]; rewrite Hmark.
    + rewrite filter_cons_False by (intros Hne; by apply Hne).
      split; [done|].
      eapply Forall_impl; [exact Hlow'|]. simpl. intros ch Hch. lia.
    + rewrite Nat.add_0_r. rewrite filter_cons_True by lia. split.
      * by constructor.
      * constructor; [lia|]. eapply Forall_impl; [exact Hlow'|].
        simpl. intros ch Hch. lia.
Qed.

Lemma StronglySorted_lt_NoDup (l : list Z) : StronglySorted Z.lt l → NoDup l.
Proof.
  induction 1 as [|x l Hsorted IH Hall]; [constructor|].
  apply NoDup_cons. split; [|done].
  intros Hin. rewrite Forall_forall in Hall. specialize (Hall x Hin). lia.
Qed.

Lemma js_truthy_true (v : option bool) : js_truthy v = true ↔ v = Some true.
Proof. destruct v as [[]|]; simpl; split; congruence. Qed.

Lemma elem_of_getActiveChannels
    (st : SequencerState) (stepIndex ch : Z) :
  ch ∈ getActiveChannels st stepIndex ↔ cell (grid st) ch stepIndex = Some true.
Proof.
  unfold getActiveChannels. rewrite list_elem_of_filter. split.
  - intros [Hne (i & row & Hch & Hrow)%elem_of_lookup_imap_1].
    destruct (js_truthy (js_index row stepIndex)) eqn:Htruthy; [|done].
    apply js_truthy_true in Htruthy. subst ch.
    unfold cell. rewrite js_index_of_nat, Hrow. done.
  - unfold cell. intros (row & Hrow & Hpad)%bind_Some.
    apply js_index_Some in Hrow as (i & -> & Hrow).
    split; [lia|].
    apply list_elem_of_lookup. exists i. rewrite list_lookup_imap, Hrow.
    simpl. by rewrite Hpad.
Qed.

(** C7. For every grid and every step index, [getActiveChannels] returns
    exactly the channel indices whose pad at that step is set, in strictly
    ascending order and without duplicates; it returns the empty list when
    no pad of that column is set. *)
Theorem getActiveChannels_exact_ascending
    (st : SequencerState) (stepIndex : Z) :
  (∀ ch, ch ∈ getActiveChannels st stepIndex
         ↔ cell (grid st) ch stepIndex = Some true)
  ∧ StronglySorted Z.lt (getActiveChannels st stepIndex)
  ∧ NoDup (getActiveChannels st stepIndex)
  ∧ ((∀ ch, cell (grid st) ch stepIndex ≠ Some true) →
     getActiveChannels st stepIndex = []).
Proof.
  assert (Hsorted : StronglySorted Z.lt (getActiveChannels st stepIndex)).
  { unfold getActiveChannels. apply (marks_sorted (grid st) 0).
    intros i row. destruct (js_truthy _); [by right|by left]. }
  split; [|split; [|split]].
  - intros ch. apply elem_of_getActiveChannels.
  - exact Hsorted.
  - by apply StronglySorted_lt_NoDup.
  - intros Hnone. apply elem_of_nil_inv. intros ch Hch.
    apply elem_of_getActiveChannels in Hch. by apply (Hnone ch).
Qed.

Lemma initialState_column_empty (stepIndex ch : Z) :
  cell (grid initialState) ch stepIndex ≠ Some true.
Proof.
  intros (i & j & row & -> & -> & Hrow & Hpad)%cell_Some.
  simpl in Hrow. unfold initializeGrid in Hrow.
  apply lookup_replicate in Hrow as [-> _].
  by apply lookup_replicate in Hpad as [? _].
Qed.

(** Step 4 of [threePads], where channels 0, 2 and 5 are on, and step 4 of
    the initial state, where none is. *)
Lemma getActiveChannels_exact_ascending_witness :
  (2 ∈ getActiveChannels threePads 4)
  ∧ (3 ∉ getActiveChannels threePads 4)
  ∧ StronglySorted Z.lt (getActiveChannels threePads 4)
  ∧ NoDup (getActiveChannels threePads 4)
  ∧ getActiveChannels initialState 4 = [].
Proof.
  destruct (getActiveChannels_exact_ascending threePads 4)
    as (Hmem & Hsorted & Hnodup & _).
  destruct (getActiveChannels_exact_ascending initialState 4)
    as (_ & _ & _ & Hempty).
  split; [by apply Hmem|]. split; [by rewrite Hmem|].
  split; [done|]. split; [done|].
  apply Hempty. apply initialState_column_empty.
Defined.

(** The scenario of the specification: pads 0, 2 and 5 of a column. *)
Example getActiveChannels_0_2_5 :
  ∃ st1 st2 st3,
    togglePad 0 4 initialState = Returns st1
    ∧ togglePad 5 4 st1 = Returns st2
    ∧ togglePad 2 4 st2 = Returns st3
    ∧ getActiveChannels st3 4 = [0; 2; 5]
    ∧ getActiveChannels st3 3 = []
    ∧ getActiveChannels st3 16 = [].
Proof. do 3 eexists. repeat split. Qed.

End ActiveChannels.

(* ================================================================== *)
(** * The step clock *)
(* ================================================================== *)

Section StepDuration.
Import AudioClock.
#[local] Open Scope Q_scope.

Lemma calculateStepDuration_eq (c : Clock) :
  0 < bpm c → calculateStepDuration c == 15 / bpm c.
Proof.
  intros Hpos. unfold calculateStepDuration. field.
  intros Hzero. rewrite Hzero in Hpos. by apply (Qlt_irrefl 0).
Qed.

Lemma calculateStepDuration_pos (c : Clock) :
  0 < bpm c → 0 < calculateStepDuration c.
Proof.
  intros Hpos. rewrite calculateStepDuration_eq by done.
  apply Qlt_shift_div_l; [done|]. lra.
Qed.

(** C6. For every tempo in [80,200] the step duration [calculateStepDuration]
    computes is (60/tempo)/4 seconds, and of two tempos in that range the
    larger one has the strictly smaller step duration. *)
Theorem calculateStepDuration_formula_decreasing (c1 c2 : Clock) :
  80 <= bpm c1 → bpm c1 < bpm c2 → bpm c2 <= 200 →
  calculateStepDuration c1 == (60 / bpm c1) / 4
  ∧ calculateStepDuration c2 == (60 / bpm c2) / 4
  ∧ calculateStepDuration c2 < calculateStepDuration c1.
Proof.
  intros Hlo Hlt Hhi.
  assert (H1 : 0 < bpm c1) by lra.
  assert (H2 : 0 < bpm c2) by lra.
  split; [reflexivity|]. split; [reflexivity|].
  rewrite !calculateStepDuration_eq by done.
  unfold Qdiv. apply Qmult_lt_l; [lra|].
  apply (proj1 (Qinv_lt_contravar (bpm c1) (bpm c2) H1 H2)). exact Hlt.
Qed.

(** 120 and 121 beats a minute. *)
Lemma calculateStepDuration_formula_decreasing_witness :
  calculateStepDuration (with_bpm 120 newClock) == (60 / 120) / 4
  ∧ calculateStepDuration (with_bpm 121 newClock) == (60 / 121) / 4
  ∧ calculateStepDuration (with_bpm 121 newClock)
    < calculateStepDuration (with_bpm 120 newClock).
Proof.
  apply (calculateStepDuration_formula_decreasing
           (with_bpm 120 newClock) (with_bpm 121 newClock));
    simpl; lra.
Defined.

(** The scenario of the specification: at 120 beats a minute a step lasts
    an eighth of a second. *)
Example calculateStepDuration_120 :
  calculateStepDuration newClock == 1 # 8.
Proof. reflexivity. Qed.

End StepDuration.

Section StepDuration64.
Import AudioClock.

Lemma tempos_complete (t : Z) : 80 ≤ t ≤ 200 → In t tempos.
Proof.
  intros Ht. unfold tempos. apply in_map_iff.
  exists (Z.to_nat (t - 80)). split; [lia|]. apply in_seq. lia.
Qed.

(** X24. In binary64 too, of two whole tempos in [80,200] the larger has the
    strictly smaller step duration: rounding merges no two of them. *)
Lemma calculateStepDuration64_decreasing (t1 t2 : Z) :
  80 ≤ t1 → t1 < t2 → t2 ≤ 200 →
  PrimFloat.ltb (calculateStepDuration64 (float_of_Z t2))
                (calculateStepDuration64 (float_of_Z t1)) = true.
Proof.
  intros Hlo Hlt Hhi.
  assert (Hall : decreasing64 tempos = true) by (vm_compute; reflexivity).
  unfold decreasing64 in Hall. rewrite forallb_forall in Hall.
  specialize (Hall t1 (tempos_complete t1 ltac:(lia))).
  rewrite forallb_forall in Hall.
  specialize (Hall t2 (tempos_complete t2 ltac:(lia))).
  simpl in Hall. destruct (Z.ltb_spec t1 t2); [done|lia].
Qed.

End StepDuration64.

Section TimingCheck.
Import AudioClock.

Lemma fired_nothing (w w' : World) :
  delivered (w'.2) = delivered (w.2) → fired w w' = [].
Proof. intros Hsame. unfold fired. rewrite Hsame. apply drop_all. Qed.

Lemma fired_one (w w' : World) (call : Callback * Z) :
  delivered (w'.2) = delivered (w.2) ++ [call] → fired w w' = [call].
Proof. intros Hone. unfold fired. rewrite Hone. by rewrite drop_app_length. Qed.

(** A clock that is not running ignores a check altogether. *)
Lemma checkTiming_stopped (c : Clock) (p : Page) :
  isRunning c = false → checkTiming (c, p) = (c, p).
Proof. intros Hstopped. unfold checkTiming. by rewrite Hstopped. Qed.




(** After the stalled check above one step has fired, the counter wrapped
    to 0, and the deadline sits at 1.125 seconds, still in the past: the
    next check fires the next step, and so on, one step per check. *)
Example stalledClock_skips :
  fired (stalledClock, newPage) (checkTiming (stalledClock, newPage))
  = [(0%nat, 15)]
  ∧ currentStep (checkTiming (stalledClock, newPage)).1 = 0
  ∧ nextStepTime (checkTiming (stalledClock, newPage)).1 = (1 + (1 # 8))%Q.
Proof. repeat split. Qed.

End TimingCheck.

Section Stopping.
Import AudioClock.

Lemma stop_isRunning (w : World) : isRunning (stop w).1 = false.
Proof.
  destruct w as [c p]. unfold stop. simpl.
  destruct (animationFrameId c) as [handle|]; [|done].
  by destruct (handle =? 0).
Qed.

Lemma stop_currentStep (w : World) : currentStep (stop w).1 = 0.
Proof.
  destruct w as [c p]. unfold stop. simpl.
  destruct (animationFrameId c) as [handle|]; [|done].
  by destruct (handle =? 0).
Qed.

Lemma stop_delivered (w : World) : delivered (stop w).2 = delivered (w.2).
Proof.
  destruct w as [c p]. unfold stop. simpl.
  destruct (animationFrameId c) as [handle|]; [|done].
  by destruct (handle =? 0).
Qed.


(** [stop] takes the request it remembers out of the frame table. *)
Lemma stop_cancels (w : World) (handle : Z) :
  animationFrameId (w.1) = Some handle → handle ≠ 0 →
  (handle ∉ frames (stop w).2) ∧ animationFrameId (stop w).1 = None.
Proof.
  destruct w as [c p]. simpl. intros Hid Hnz. unfold stop. simpl.
  rewrite Hid. destruct (Z.eqb_spec handle 0); [done|]. simpl.
  split; [|done]. rewrite list_elem_of_filter. intros [Hne _]. by apply Hne.
Qed.

Lemma advance_isRunning (now : Q) (w : World) :
  isRunning (advance now w).1 = isRunning (w.1).
Proof. destruct w as [c p]. unfold advance. by destruct (audioContext c). Qed.

Lemma advance_delivered (now : Q) (w : World) :
  delivered (advance now w).2 = delivered (w.2).
Proof. destruct w as [c p]. unfold advance. by destruct (audioContext c). Qed.

Lemma checkTiming_stopped_world (w : World) :
  isRunning (w.1) = false → checkTiming w = w.
Proof. destruct w as [c p]. apply checkTiming_stopped. Qed.

(** No call other than [start] sets a stopped clock going or reaches a
    subscriber. *)
Lemma exec_stopped (e : Event) (w : World) :
  isRunning (w.1) = false → is_start e = false →
  isRunning (exec e w).1 = false ∧ delivered (exec e w).2 = delivered (w.2).
Proof.
  intros Hstopped Hnot.
  destruct e as [now handle|now|b s pf| |b|cb|]; [| |done| | | |].
  - unfold exec. case_bool_decide; [|done].
    assert (Hadv : isRunning
                     (advance now (w.1, cancelAnimationFrame handle (w.2))).1
                   = false) by (by rewrite advance_isRunning).
    rewrite (checkTiming_stopped_world _ Hadv).
    split; [done|]. by rewrite advance_delivered.
  - unfold exec.
    assert (Hadv : isRunning (advance now w).1 = false)
      by (by rewrite advance_isRunning).
    rewrite (checkTiming_stopped_world _ Hadv).
    split; [done|]. by rewrite advance_delivered.
  - split; [apply stop_isRunning|apply stop_delivered].
  - destruct w as [c p]. simpl in *. unfold setBpm.
    destruct (Qeq_bool (clampBpm b) (bpm c)); [done|].
    simpl. by rewrite Hstopped.
  - by destruct w as [c p].
  - unfold exec, destroy. pose proof (stop_isRunning w) as Hrun.
    pose proof (stop_delivered w) as Hdel.
    destruct (stop w) as [c p]. simpl in *.
    destruct (audioContext c) as [ctx|]; [|done].
    by destruct (state ctx).
Qed.

Lemma run_stopped (es : list Event) :
  ∀ w : World,
    isRunning (w.1) = false → Forall (λ e, is_start e = false) es →
    isRunning (run es w).1 = false ∧ delivered (run es w).2 = delivered (w.2).
Proof.
  induction es as [|e es IH]; intros w Hstopped Hnot; [done|].
  inversion Hnot as [|? ? He Hes]; subst.
  destruct (exec_stopped e w Hstopped He) as [Hrun Hdel].
  destruct (IH (exec e w) Hrun Hes) as [Hrun' Hdel'].
  simpl. split; [done|]. by rewrite Hdel'.
Qed.



End Stopping.

Section Tempo.
Import AudioClock.
#[local] Open Scope Q_scope.

(** The four cases of [Math.max(80, Math.min(200, q))]. *)
Ltac clamp_cases q :=
  unfold clampBpm;
  destruct (Q.min_spec 200 q) as [[? Hmin]|[? Hmin]];
  destruct (Q.max_spec 80 (Qmin 200 q)) as [[? Hmax]|[? Hmax]];
  rewrite Hmax; rewrite ?Hmin in *; lra.

Lemma clampBpm_range (q : Q) : 80 <= clampBpm q ∧ clampBpm q <= 200.
Proof.
  clamp_cases q.
Qed.

Lemma clampBpm_inside (q : Q) : 80 <= q → q <= 200 → clampBpm q == q.
Proof.
  intros Hlo Hhi. clamp_cases q.
Qed.

Lemma clampBpm_below (q : Q) : q < 80 → clampBpm q == 80.
Proof.
  intros Hlo. clamp_cases q.
Qed.

Lemma clampBpm_above (q : Q) : 200 < q → clampBpm q == 200.
Proof.
  intros Hhi. clamp_cases q.
Qed.

(** Whatever the clock, after [setBpm] its tempo is the clamped argument. *)
Lemma setBpm_bpm (newBpm : Q) (w : World) :
  bpm (setBpm newBpm w).1 == clampBpm newBpm.
Proof.
  destruct w as [c p]. unfold setBpm.
  destruct (Qeq_bool (clampBpm newBpm) (bpm c)) eqn:Hsame.
  - apply Qeq_bool_iff in Hsame. simpl. by symmetry.
  - simpl. destruct (isRunning c); [|reflexivity].
    destruct (audioContext c); reflexivity.
Qed.

(** [setBpm] calls no subscriber and does not move the step counter or the
    running flag. *)
Lemma setBpm_frame (newBpm : Q) (w : World) :
  delivered (setBpm newBpm w).2 = delivered (w.2)
  ∧ currentStep (setBpm newBpm w).1 = currentStep (w.1)
  ∧ isRunning (setBpm newBpm w).1 = isRunning (w.1).
Proof.
  destruct w as [[ctx run tempo step handle t0 t1 d cb] p]. unfold setBpm.
  destruct (Qeq_bool _ _); [done|]. simpl.
  destruct run; [|done]. by destruct ctx.
Qed.

(** C5. [setBpm] clamps its argument to [80,200].  On a running clock whose
    step duration is the one of its tempo, with [t] the time left until the
    deadline, the time left after [setBpm] is [t] times the new step
    duration over the old one; the call reaches no subscriber and leaves the
    step counter alone, and the deadline has passed after the call exactly
    when it had passed before it: the rescale neither makes a step due nor
    puts off one that is. *)
Theorem setBpm_clamps_and_rescales (newBpm : Q) (c : Clock) (p : Page) :
  (bpm (setBpm newBpm (c, p)).1 == clampBpm newBpm
   ∧ 80 <= bpm (setBpm newBpm (c, p)).1
   ∧ bpm (setBpm newBpm (c, p)).1 <= 200
   ∧ (80 <= newBpm → newBpm <= 200 → bpm (setBpm newBpm (c, p)).1 == newBpm)
   ∧ (newBpm < 80 → bpm (setBpm newBpm (c, p)).1 == 80)
   ∧ (200 < newBpm → bpm (setBpm newBpm (c, p)).1 == 200))
  ∧ ∀ ctx : AudioContext,
      isRunning c = true →
      audioContext c = Some ctx →
      0 < bpm c →
      stepDuration c == calculateStepDuration c →
      stepDuration (setBpm newBpm (c, p)).1
      == calculateStepDuration (setBpm newBpm (c, p)).1
      ∧ nextStepTime (setBpm newBpm (c, p)).1 - contextTime ctx
        == (nextStepTime c - contextTime ctx)
           * (stepDuration (setBpm newBpm (c, p)).1 / stepDuration c)
      ∧ fired (c, p) (setBpm newBpm (c, p)) = []
      ∧ currentStep (setBpm newBpm (c, p)).1 = currentStep c
      ∧ isRunning (setBpm newBpm (c, p)).1 = true
      ∧ (nextStepTime (setBpm newBpm (c, p)).1 <= contextTime ctx
         ↔ nextStepTime c <= contextTime ctx).
Proof.
  pose proof (setBpm_bpm newBpm (c, p)) as Hbpm.
  pose proof (clampBpm_range newBpm) as [Hlo Hhi].
  split.
  { split; [done|]. rewrite Hbpm.
    split; [done|]. split; [done|].
    split; [apply clampBpm_inside|].
    split; [apply clampBpm_below|apply clampBpm_above]. }
  intros ctx Hrun Hctx Hpos Hdur.
  destruct (setBpm_frame newBpm (c, p)) as (Hdel & Hstep & Hrun').
  assert (Hold : 0 < stepDuration c).
  { rewrite Hdur. by apply calculateStepDuration_pos. }
  assert (Hrest :
    stepDuration (setBpm newBpm (c, p)).1
    == calculateStepDuration (setBpm newBpm (c, p)).1
    ∧ nextStepTime (setBpm newBpm (c, p)).1 - contextTime ctx
      == (nextStepTime c - contextTime ctx)
         * (stepDuration (setBpm newBpm (c, p)).1 / stepDuration c)
    ∧ (nextStepTime (setBpm newBpm (c, p)).1 <= contextTime ctx
       ↔ nextStepTime c <= contextTime ctx)).
  { clear Hbpm Hdel Hstep Hrun'. unfold setBpm.
    destruct (Qeq_bool (clampBpm newBpm) (bpm c)); simpl.
    - split; [done|]. split; [|done]. field.
      intros Hzero. rewrite Hzero in Hold. by apply (Qlt_irrefl 0).
    - rewrite Hrun, Hctx. simpl. split; [reflexivity|].
      assert (Hnew : 0 < calculateStepDuration (with_bpm (clampBpm newBpm) c)).
      { apply calculateStepDuration_pos. simpl. lra. }
      assert (Hfactor :
        0 < calculateStepDuration (with_bpm (clampBpm newBpm) c)
            / stepDuration c).
      { apply Qlt_shift_div_l; [done|]. lra. }
      revert Hfactor.
      generalize (calculateStepDuration (with_bpm (clampBpm newBpm) c)
                  / stepDuration c).
      intros factor Hfactor. split; [ring|].
      split; intros Hle; nra. }
  destruct Hrest as (H1 & H2 & H3).
  split; [done|]. split; [done|].
  split; [by apply fired_nothing|].
  split; [done|]. split; [by rewrite Hrun'|done].
Qed.

(** [tickingClock] is slowed from 120 to the clamped 80 beats a minute: the
    sixteenth of a second it had left becomes three thirty-seconds. *)
Lemma setBpm_clamps_and_rescales_witness :
  bpm (setBpm 60 (tickingClock, newPage)).1 == 80
  ∧ stepDuration (setBpm 60 (tickingClock, newPage)).1 == 3 # 16
  ∧ nextStepTime (setBpm 60 (tickingClock, newPage)).1 - 1
    == ((17 # 16) - 1) * ((3 # 16) / (1 # 8))
  ∧ fired (tickingClock, newPage) (setBpm 60 (tickingClock, newPage)) = []
  ∧ currentStep (setBpm 60 (tickingClock, newPage)).1 = 3%Z.
Proof.
  destruct (setBpm_clamps_and_rescales 60 tickingClock newPage)
    as [(Hbpm & _) Hrunning].
  destruct (Hrunning {| state := running; contextTime := 1 |})
    as (Hdur & Hleft & Hfired & Hstep & _);
    [reflexivity | reflexivity | simpl; lra | reflexivity |].
  split; [rewrite Hbpm; by vm_compute|].
  split; [rewrite Hdur; by vm_compute|].
  split; [rewrite Hleft; by vm_compute|].
  split; [exact Hfired|exact Hstep].
Defined.

End Tempo.

(* ================================================================== *)
(** * What every reachable clock satisfies *)
(* ================================================================== *)

Section ClockInvariant.
Import AudioClock.
#[local] Open Scope Q_scope.

Lemma newClock_ok : clock_ok newClock.
Proof.
  unfold clock_ok, newClock, totalSteps. simpl.
  split; [lra|]. split; [lra|]. split; [lia|done].
Qed.

Lemma advance_ok (now : Q) (w : World) :
  clock_ok (w.1) → clock_ok (advance now w).1.
Proof.
  destruct w as [[ctx run tempo step handle t0 t1 d cb] p].
  unfold clock_ok, advance. simpl.
  intros (Hlo & Hhi & Hstep & Hrun).
  destruct ctx as [ctx|]; simpl; [|done].
  split; [done|]. split; [done|]. split; [done|].
  intros Hr. destruct (Hrun Hr) as [_ Hd]. split; [by eexists|done].
Qed.

Lemma checkTiming_ok (w : World) :
  clock_ok (w.1) → clock_ok (checkTiming w).1.
Proof.
  destruct w as [[ctx run tempo step handle t0 t1 d cb] p].
  unfold clock_ok, checkTiming, triggerStep. simpl.
  intros (Hlo & Hhi & Hstep & Hrun).
  destruct run; simpl; [|done].
  destruct ctx as [ctx|]; simpl; [|done].
  destruct (Qle_bool t1 (contextTime ctx)); simpl; [|done].
  split; [done|]. split; [done|]. split; [|done].
  unfold totalSteps in *. rewrite Z.rem_mod_nonneg by lia.
  apply Z.mod_pos_bound. lia.
Qed.

Lemma stop_ok (w : World) : clock_ok (w.1) → clock_ok (stop w).1.
Proof.
  destruct w as [[ctx run tempo step handle t0 t1 d cb] p].
  unfold clock_ok, stop, totalSteps. simpl.
  intros (Hlo & Hhi & Hstep & Hrun).
  destruct handle as [handle|]; simpl.
  - destruct (handle =? 0)%Z; simpl;
      (split; [done|]; split; [done|]; split; [lia|done]).
  - split; [done|]. split; [done|]. split; [lia|done].
Qed.

Lemma setBpm_ok (newBpm : Q) (w : World) :
  clock_ok (w.1) → clock_ok (setBpm newBpm w).1.
Proof.
  destruct w as [[ctx run tempo step handle t0 t1 d cb] p].
  unfold clock_ok, setBpm. simpl.
  intros (Hlo & Hhi & Hstep & Hrun).
  pose proof (clampBpm_range newBpm) as [Hlo' Hhi'].
  destruct (Qeq_bool (clampBpm newBpm) tempo); simpl; [done|].
  destruct run; simpl; [|done].
  destruct ctx as [ctx|]; simpl.
  - split; [done|]. split; [done|]. split; [done|].
    intros _. split; [by eexists|reflexivity].
  - destruct (Hrun eq_refl) as [[? Hnone] _]. discriminate Hnone.
Qed.

(** When [initialize] answers [true] the clock holds a context. *)
Lemma initialize_true (pf : Platform) (c : Clock) :
  (initialize pf c).1 = true → is_Some (audioContext (initialize pf c).2).
Proof.
  unfold initialize.
  destruct (match audioContext c with
            | Some ctx => Some ctx
            | None => _ <$> constructed pf
            end) as [ctx|]; [|done].
  destruct (match state ctx with suspended => _ | _ => Some ctx end)
    as [ctx'|]; [|done].
  simpl. intros _. by eexists.
Qed.

Lemma initialize_frame (pf : Platform) (c : Clock) :
  ∃ ctx, (initialize pf c).2 = with_audioContext ctx c.
Proof.
  unfold initialize.
  destruct (match audioContext c with
            | Some ctx => Some ctx
            | None => _ <$> constructed pf
            end) as [ctx|].
  - destruct (match state ctx with suspended => _ | _ => Some ctx end)
      as [ctx'|]; by eexists.
  - exists (audioContext c). by destruct c.
Qed.

Lemma start_ok (bpmArg : Q) (startStep : Z) (pf : Platform) (w : World) :
  (0 ≤ startStep < totalSteps)%Z →
  clock_ok (w.1) → clock_ok (start bpmArg startStep pf w).2.1.
Proof.
  intros Hs Hok. destruct w as [c p]. unfold start.
  destruct (isRunning c) eqn:Hrun; [done|].
  pose proof (initialize_true pf c) as Hctx.
  destruct (initialize_frame pf c) as [ctx Hframe].
  destruct (initialize pf c) as [initialized c0].
  cbn [fst snd] in Hctx, Hframe. subst c0.
  destruct initialized; cbn [negb fst snd].
  - apply (checkTiming_ok (_, p)). simpl.
    pose proof (clampBpm_range bpmArg) as [Hlo' Hhi'].
    unfold clock_ok. simpl.
    split; [done|]. split; [done|]. split; [done|].
    intros _. split; [by apply Hctx|reflexivity].
  - destruct Hok as (Hlo & Hhi & Hstep & _).
    unfold clock_ok. simpl. by rewrite Hrun.
Qed.

Lemma destroy_ok (w : World) : clock_ok (w.1) → clock_ok (destroy w).1.
Proof.
  intros Hok. unfold destroy.
  pose proof (stop_ok w Hok) as Hok'. pose proof (stop_isRunning w) as Hrun.
  destruct (stop w) as [c p]. simpl in *.
  destruct (audioContext c) as [ctx|]; [|done].
  destruct Hok' as (Hlo & Hhi & Hstep & Hctx).
  destruct (state ctx); unfold clock_ok; simpl; by rewrite Hrun.
Qed.

Lemma exec_ok (e : Event) (w : World) :
  event_ok e → clock_ok (w.1) → clock_ok (exec e w).1.
Proof.
  intros He Hok. destruct e as [now handle|now|b s pf| |b|cb|]; simpl.
  - case_bool_decide; [|done].
    apply checkTiming_ok. by apply (advance_ok now (w.1, _)).
  - by apply checkTiming_ok, advance_ok.
  - by apply start_ok.
  - by apply stop_ok.
  - by apply setBpm_ok.
  - by destruct w as [c p].
  - by apply destroy_ok.
Qed.


End ClockInvariant.

Section ClockScenarios.
Import AudioClock.

(** The scenario of the specification: at 120 beats a minute, started on
    step 0 and checked at every eighth of a second, the clock fires the 16
    steps in order during 2 seconds and is back on step 0. *)
Example sixteen_steps_in_two_seconds :
  let w0 := (newClock, newPage) in
  let w := run (CallOnStep 0%nat
                :: CallStart 120 0 (mkPlatform (Some running) None)
                :: map (λ k, Frame (Z.of_nat k # 8) (Z.of_nat k)) (seq 1 16))
               w0 in
  delivered (w.2) = map (λ k, (0%nat, Z.of_nat k)) (seq 0 16)
  ∧ currentStep (w.1) = 0
  ∧ (nextStepTime (w.1) == 2 + (1 # 8))%Q.
Proof. vm_compute. done. Qed.

(** The scenario of the specification: started and stopped at once, the
    clock never fires, whatever frame runs afterwards. *)
Example play_then_stop_fires_nothing :
  let w0 := (newClock, newPage) in
  let w := run [CallOnStep 0%nat;
                CallStart 120 0 (mkPlatform (Some running) None);
                CallStop; Frame 1 1; RunCheck 5; CallSetBpm 90; RunCheck 9]
               w0 in
  delivered (w.2) = [] ∧ isRunning (w.1) = false ∧ frames (w.2) = [].
Proof. vm_compute. done. Qed.

End ClockScenarios.

(* ================================================================== *)
(** * Sending over the socket *)
(* ================================================================== *)

Section SendingFacts.
Import WebSocket.

Variable sendJsonMessage : WebSocketMessage → Wire → Wire * option string.

(** A hook that is not connected refuses the message before the socket is
    ever asked: the outcome does not depend on the socket. *)
Lemma sendMessage_not_connected
    (message : WebSocketMessage) (h : Hook) (w : Wire) :
  isConnected h = false →
  ∀ socket,
    sendMessage socket message h w
    = (false, setLastError "WebSocket not connected" h, w).
Proof. intros Hclosed socket. unfold sendMessage. by rewrite Hclosed. Qed.

Lemma sendMessage_accepted
    (message : WebSocketMessage) (h : Hook) (w w' : Wire) :
  isConnected h = true → sendJsonMessage message w = (w', None) →
  sendMessage sendJsonMessage message h w = (true, h, w').
Proof.
  intros Hopen Hsent. unfold sendMessage. by rewrite Hopen, Hsent.
Qed.

Lemma sendMessage_thrown
    (message : WebSocketMessage) (h : Hook) (w w' : Wire) (error : string) :
  isConnected h = true → sendJsonMessage message w = (w', Some error) →
  (sendMessage sendJsonMessage message h w).1.1 = false.
Proof.
  intros Hopen Hsent. unfold sendMessage. by rewrite Hopen, Hsent.
Qed.

End SendingFacts.

Section BatchTrigger.
Import WebSocket.

(** C8. For every channel list and duration: when the hook is not
    connected [triggerGPIO] returns false, the wire is what it was, and the
    socket is not even called (any socket gives the same outcome); when the
    hook is connected and the socket takes the message, [triggerGPIO]
    returns true and the wire is the one the socket left. *)
Theorem triggerGPIO_refused_or_accepted
    (sendJsonMessage : WebSocketMessage → Wire → Wire * option string)
    (channels : list Z) (duration : Z) (h : Hook) (w : Wire) :
  (isConnected h = false →
     (triggerGPIO sendJsonMessage channels duration h w).1.1 = false
     ∧ (triggerGPIO sendJsonMessage channels duration h w).2 = w
     ∧ ∀ socket,
         triggerGPIO socket channels duration h w
         = triggerGPIO sendJsonMessage channels duration h w)
  ∧ (isConnected h = true →
     ∀ w',
       sendJsonMessage
         {| type := gpio_trigger; data := GPIOCommand channels duration |} w
       = (w', None) →
       (triggerGPIO sendJsonMessage channels duration h w).1.1 = true
       ∧ (triggerGPIO sendJsonMessage channels duration h w).2 = w').
Proof.
  unfold triggerGPIO. split.
  - intros Hclosed.
    rewrite (sendMessage_not_connected _ _ _ Hclosed sendJsonMessage).
    split; [done|]. split; [done|].
    intros socket. apply (sendMessage_not_connected _ _ _ Hclosed).
  - intros Hopen w' Hsent.
    by rewrite (sendMessage_accepted _ _ _ _ _ Hopen Hsent).
Qed.

(** The scenario of the specification: the batch [{channels: [0,2,5],
    duration: 50}], sent while disconnected and sent while connected. *)
Lemma triggerGPIO_refused_or_accepted_witness :
  ((triggerGPIO acceptingSocket [0; 2; 5] 50 disconnectedHook []).1.1 = false
   ∧ (triggerGPIO acceptingSocket [0; 2; 5] 50 disconnectedHook []).2 = [])
  ∧ ((triggerGPIO acceptingSocket [0; 2; 5] 50 connectedHook []).1.1 = true
     ∧ (triggerGPIO acceptingSocket [0; 2; 5] 50 connectedHook []).2
       = [{| type := gpio_trigger; data := GPIOCommand [0; 2; 5] 50 |}]).
Proof.
  split.
  - destruct (triggerGPIO_refused_or_accepted
                acceptingSocket [0; 2; 5] 50 disconnectedHook [])
      as [Hrefused _].
    destruct (Hrefused eq_refl) as (Hfalse & Hwire & _). by split.
  - destruct (triggerGPIO_refused_or_accepted
                acceptingSocket [0; 2; 5] 50 connectedHook [])
      as [_ Haccepted].
    apply (Haccepted eq_refl). reflexivity.
Defined.

End BatchTrigger.

(* ================================================================== *)
(** * Reconnection *)
(* ================================================================== *)

Section Reconnection.
Import WebSocket.

Lemma onCloseSchedule_hookOptions (reconnectCount : nat) :
  onCloseSchedule hookOptions reconnectCount
  = if (reconnectCount <? 1)%nat then Some 3000 else None.
Proof. reflexivity. Qed.

(** C2, on the code: with the options the hook passes, the first close
    schedules one attempt 3000 ms later; when that attempt fails nothing
    more is scheduled, so of any number of failures in a row only one is
    followed by an attempt, and the delays do not form an exponential
    backoff that goes on for ever. *)
Theorem reconnect_gives_up_after_one_attempt :
  onCloseSchedule hookOptions 0 = Some 3000
  ∧ (∀ n : nat, (1 ≤ n)%nat → onCloseSchedule hookOptions n = None)
  ∧ (∀ fuel : nat, retryDelays hookOptions 0 (S fuel) = [3000])
  ∧ ¬ exponential_backoff_forever hookOptions.
Proof.
  split; [reflexivity|].
  assert (Hnone : ∀ n : nat,
             (1 ≤ n)%nat → onCloseSchedule hookOptions n = None).
  { intros n Hn. rewrite onCloseSchedule_hookOptions.
    destruct (Nat.ltb_spec n 1); [lia|done]. }
  split; [exact Hnone|]. split.
  - intros [|fuel]; [reflexivity|].
    simpl. reflexivity.
  - intros (base & factor & cap & _ & _ & Hall).
    specialize (Hall 1%nat). rewrite Hnone in Hall by lia. discriminate Hall.
Qed.

End Reconnection.

(* ================================================================== *)
(** * More on the step clock *)
(* ================================================================== *)

Section Deliveries.
Import AudioClock.

(** One check adds at most one call to the log, made to the registered
    subscriber with the step the clock was on, and keeps the subscriber. *)
Lemma checkTiming_delivered (w : World) :
  (delivered (checkTiming w).2 = delivered (w.2)
   ∨ ∃ cb, onStepCallback (w.1) = Some cb
           ∧ delivered (checkTiming w).2
             = delivered (w.2) ++ [(cb, currentStep (w.1))])
  ∧ onStepCallback (checkTiming w).1 = onStepCallback (w.1).
Proof.
  destruct w as [[ctx run tempo step handle t0 t1 d cb] p].
  unfold checkTiming, triggerStep. simpl.
  destruct run; simpl; [|by split; [left|]].
  destruct ctx as [ctx|]; simpl; [|by split; [left|]].
  destruct (Qle_bool t1 (contextTime ctx)); simpl; [|by split; [left|]].
  destruct cb as [cb|]; simpl; [|by split; [left|]].
  split; [right; by exists cb|done].
Qed.

Lemma advance_onStepCallback (now : Q) (w : World) :
  onStepCallback (advance now w).1 = onStepCallback (w.1).
Proof. destruct w as [c p]. unfold advance. by destruct (audioContext c). Qed.

Lemma advance_currentStep (now : Q) (w : World) :
  currentStep (advance now w).1 = currentStep (w.1).
Proof. destruct w as [c p]. unfold advance. by destruct (audioContext c). Qed.

Lemma stop_onStepCallback (w : World) :
  onStepCallback (stop w).1 = onStepCallback (w.1).
Proof.
  destruct w as [[ctx run tempo step [handle|] t0 t1 d cb] p];
    unfold stop; simpl; [|done].
  by destruct (handle =? 0).
Qed.

Lemma setBpm_onStepCallback (newBpm : Q) (w : World) :
  onStepCallback (setBpm newBpm w).1 = onStepCallback (w.1).
Proof.
  destruct w as [[ctx run tempo step handle t0 t1 d cb] p]. unfold setBpm.
  destruct (Qeq_bool _ _); [done|]. simpl.
  destruct run; [|done]. by destruct ctx.
Qed.

(** Whatever happens to a clock, the log of calls only grows, by at most
    one call, and the call goes to the subscriber registered before. *)
Lemma exec_delivered (e : Event) (w : World) :
  (delivered (exec e w).2 = delivered (w.2)
   ∨ ∃ cb step, onStepCallback (w.1) = Some cb
                ∧ delivered (exec e w).2 = delivered (w.2) ++ [(cb, step)])
  ∧ (is_onStep e = false →
     onStepCallback (exec e w).1 = onStepCallback (w.1)).
Proof.
  destruct e as [now handle|now|b s pf| |b|cb|].
  - unfold exec. case_bool_decide; [|by split; [left|]].
    pose proof (checkTiming_delivered
                  (advance now (w.1, cancelAnimationFrame handle (w.2))))
      as [Hlog Hcb].
    rewrite advance_delivered, advance_onStepCallback in *. simpl in *.
    split; [|done]. destruct Hlog as [Hsame|(cb & Hreg & Hone)]; [by left|].
    right. by eexists _, _.
  - unfold exec.
    pose proof (checkTiming_delivered (advance now w)) as [Hlog Hcb].
    rewrite advance_delivered, advance_onStepCallback in *.
    split; [|done]. destruct Hlog as [Hsame|(cb & Hreg & Hone)]; [by left|].
    right. by eexists _, _.
  - destruct w as [c p]. unfold exec, start.
    destruct (isRunning c); [by split; [left|]|].
    destruct (initialize_frame pf c) as [ctx Hframe].
    destruct (initialize pf c) as [initialized c0]. cbn [fst snd] in Hframe.
    subst c0. destruct initialized; cbn [negb fst snd];
      [|by split; [left|]].
    match goal with
    | |- context [checkTiming ?w0] =>
        pose proof (checkTiming_delivered w0) as [Hlog Hcb]
    end.
    simpl in Hlog, Hcb. split; [|done].
    destruct Hlog as [Hsame|(cb & Hreg & Hone)]; [by left|].
    right. by eexists _, _.
  - unfold exec. rewrite stop_delivered, stop_onStepCallback. by split; [left|].
  - unfold exec. destruct (setBpm_frame b w) as (Hdel & _ & _).
    rewrite Hdel, setBpm_onStepCallback. by split; [left|].
  - destruct w as [c p]. by split; [left|].
  - unfold exec, destroy.
    pose proof (stop_delivered w) as Hdel.
    pose proof (stop_onStepCallback w) as Hcb.
    destruct (stop w) as [c p]. simpl in *.
    destruct (audioContext c) as [ctx|]; [|by split; [left|]].
    destruct (state ctx); by split; [left|].
Qed.

End Deliveries.

Section Starting.
Import AudioClock.
#[local] Open Scope Q_scope.

(** A deadline one step duration ahead of the context's time is not due. *)
Lemma first_deadline_not_due (now tempo : Q) :
  Qle_bool (now + (60 / clampBpm tempo) / 4) now = false.
Proof.
  destruct (Qle_bool _ _) eqn:Hdue; [|done].
  apply Qle_bool_iff in Hdue.
  pose proof (clampBpm_range tempo) as [Hlo _].
  assert (Hpos : 0 < (60 / clampBpm tempo) / 4).
  { apply Qlt_shift_div_l; [lra|]. apply Qlt_shift_div_l; lra. }
  lra.
Qed.

(** What a [start] that gets its audio context leaves behind. *)
Lemma start_initialized
    (bpmArg : Q) (startStep : Z) (pf : Platform) (c : Clock) (p : Page) :
  isRunning c = false → (initialize pf c).1 = true →
  ∃ ctx,
    audioContext (initialize pf c).2 = Some ctx
    ∧ start bpmArg startStep pf (c, p)
      = (true,
         ({| audioContext := Some ctx; isRunning := true;
             bpm := clampBpm bpmArg; currentStep := startStep;
             animationFrameId := Some (nextHandle p);
             startTime := contextTime ctx;
             nextStepTime := contextTime ctx + (60 / clampBpm bpmArg) / 4;
             stepDuration := (60 / clampBpm bpmArg) / 4;
             onStepCallback := onStepCallback c |},
          {| frames := frames p ++ [nextHandle p];
             nextHandle := (nextHandle p + 1)%Z;
             delivered := delivered p |})).
Proof.
  intros Hrun Hinit.
  destruct (initialize_true pf c Hinit) as [ctx Hctx].
  destruct (initialize_frame pf c) as [ctx' Hframe].
  exists ctx. split; [done|].
  unfold start. rewrite Hrun.
  destruct (initialize pf c) as [initialized c0]. cbn [fst snd] in *.
  subst initialized c0. simpl in Hctx. subst ctx'. cbn [negb].
  unfold checkTiming, calculateStepDuration. simpl.
  by rewrite first_deadline_not_due.
Qed.

(** What a [start] that does not get its audio context leaves behind. *)
Lemma start_uninitialized
    (bpmArg : Q) (startStep : Z) (pf : Platform) (c : Clock) (p : Page) :
  isRunning c = false → (initialize pf c).1 = false →
  ∃ ctx,
    start bpmArg startStep pf (c, p) = (false, (with_audioContext ctx c, p)).
Proof.
  intros Hrun Hinit.
  destruct (initialize_frame pf c) as [ctx Hframe]. exists ctx.
  unfold start. rewrite Hrun.
  destruct (initialize pf c) as [initialized c0]. cbn [fst snd] in *.
  by subst initialized c0.
Qed.

(** X2. [start] answers [true] exactly when the clock is running when it
    returns.  When it answers [false] the clock differs from the one it was
    given in its audio context at most: tempo, step, deadline, subscriber,
    frame requests and the log of calls are untouched. *)
Theorem start_answer_is_running
    (bpmArg : Q) (startStep : Z) (pf : Platform) (w : World) :
  (start bpmArg startStep pf w).1 = isRunning (start bpmArg startStep pf w).2.1
  ∧ ((start bpmArg startStep pf w).1 = false →
     ∃ ctx, (start bpmArg startStep pf w).2 = (with_audioContext ctx (w.1), w.2)).
Proof.
  destruct w as [c p].
  destruct (isRunning c) eqn:Hrun.
  - unfold start. rewrite Hrun. simpl. by split.
  - destruct (initialize pf c).1 eqn:Hinit.
    + destruct (start_initialized bpmArg startStep pf c p Hrun Hinit)
        as (ctx & _ & ->). simpl. by split.
    + destruct (start_uninitialized bpmArg startStep pf c p Hrun Hinit)
        as (ctx & ->). simpl.
      split; [done|]. intros _. by exists ctx.
Qed.

(** A browser that refuses to resume the context: the answer is [false]
    and the tempo asked for is not taken. *)
Lemma start_answer_is_running_witness :
  let r := start 90 0 (mkPlatform (Some suspended) None) (newClock, newPage) in
  r.1 = isRunning (r.2.1)
  ∧ r.1 = false
  ∧ ∃ ctx, r.2 = (with_audioContext ctx newClock, newPage).
Proof.
  intros r.
  destruct (start_answer_is_running
              90 0 (mkPlatform (Some suspended) None) (newClock, newPage))
    as [Hanswer Hfailed].
  split; [exact Hanswer|]. split; [reflexivity|].
  apply Hfailed. reflexivity.
Defined.

(** X3. A [start] on a stopped clock that gets its audio context: the clock
    runs on [startStep] at the clamped tempo, the first deadline is one step
    duration after the context's time (so it is not due yet), one frame
    request is added and remembered, and no subscriber is called. *)
Theorem start_arms_first_deadline
    (bpmArg : Q) (startStep : Z) (pf : Platform) (c : Clock) (p : Page) :
  isRunning c = false → (initialize pf c).1 = true →
  ∃ ctx,
    audioContext (start bpmArg startStep pf (c, p)).2.1 = Some ctx
    ∧ (start bpmArg startStep pf (c, p)).1 = true
    ∧ isRunning (start bpmArg startStep pf (c, p)).2.1 = true
    ∧ currentStep (start bpmArg startStep pf (c, p)).2.1 = startStep
    ∧ bpm (start bpmArg startStep pf (c, p)).2.1 = clampBpm bpmArg
    ∧ stepDuration (start bpmArg startStep pf (c, p)).2.1
      = calculateStepDuration (start bpmArg startStep pf (c, p)).2.1
    ∧ nextStepTime (start bpmArg startStep pf (c, p)).2.1
      = contextTime ctx + stepDuration (start bpmArg startStep pf (c, p)).2.1
    ∧ contextTime ctx < nextStepTime (start bpmArg startStep pf (c, p)).2.1
    ∧ fired (c, p) (start bpmArg startStep pf (c, p)).2 = []
    ∧ frames (start bpmArg startStep pf (c, p)).2.2 = frames p ++ [nextHandle p]
    ∧ animationFrameId (start bpmArg startStep pf (c, p)).2.1
      = Some (nextHandle p).
Proof.
  intros Hrun Hinit.
  destruct (start_initialized bpmArg startStep pf c p Hrun Hinit)
    as (ctx & _ & ->).
  exists ctx. simpl. repeat (split; [done|]).
  split; [|by split; [apply fired_nothing|]].
  pose proof (first_deadline_not_due (contextTime ctx) bpmArg) as Hnot.
  destruct (Qlt_le_dec (contextTime ctx)
              (contextTime ctx + 60 / clampBpm bpmArg / 4)) as [|Hle]; [done|].
  apply Qle_bool_iff in Hle. congruence.
Qed.

(** A new clock started at 300 beats a minute on step 0, in a browser
    whose fresh context is suspended and resumes. *)
Lemma start_arms_first_deadline_witness :
  ∃ ctx,
    let r := start 300 0 (mkPlatform (Some suspended) (Some running))
                   (newClock, newPage) in
    audioContext (r.2.1) = Some ctx
    ∧ r.1 = true
    ∧ isRunning (r.2.1) = true
    ∧ currentStep (r.2.1) = 0%Z
    ∧ bpm (r.2.1) = clampBpm 300
    ∧ stepDuration (r.2.1) = calculateStepDuration (r.2.1)
    ∧ nextStepTime (r.2.1) = contextTime ctx + stepDuration (r.2.1)
    ∧ contextTime ctx < nextStepTime (r.2.1)
    ∧ fired (newClock, newPage) (r.2) = []
    ∧ frames (r.2.2) = [1%Z]
    ∧ animationFrameId (r.2.1) = Some 1%Z.
Proof.
  apply (start_arms_first_deadline
           300 0 (mkPlatform (Some suspended) (Some running))
           newClock newPage); reflexivity.
Defined.

Lemma start_delivered
    (bpmArg : Q) (startStep : Z) (pf : Platform) (w : World) :
  delivered (start bpmArg startStep pf w).2.2 = delivered (w.2).
Proof.
  destruct w as [c p].
  destruct (isRunning c) eqn:Hrun.
  - unfold start. by rewrite Hrun.
  - destruct (initialize pf c).1 eqn:Hinit.
    + by destruct (start_initialized bpmArg startStep pf c p Hrun Hinit)
        as (ctx & _ & ->).
    + by destruct (start_uninitialized bpmArg startStep pf c p Hrun Hinit)
        as (ctx & ->).
Qed.

End Starting.

Section LogGrowth.
Import AudioClock.

Lemma fired_app (w w' : World) (extra : list (Callback * Z)) :
  delivered (w'.2) = delivered (w.2) ++ extra → fired w w' = extra.
Proof. intros Hlog. unfold fired. rewrite Hlog. by rewrite drop_app_length. Qed.

(** Only a check can reach a subscriber. *)
Lemma exec_not_check (e : Event) (w : World) :
  is_check e = false → delivered (exec e w).2 = delivered (w.2).
Proof.
  destruct e as [now handle|now|b s pf| |b|cb|]; try done; intros _.
  - apply start_delivered.
  - apply stop_delivered.
  - by destruct (setBpm_frame b w) as (Hdel & _ & _).
  - by destruct w as [c p].
  - unfold exec, destroy. pose proof (stop_delivered w) as Hdel.
    destruct (stop w) as [c p]. simpl in *.
    destruct (audioContext c) as [ctx|]; [|done]. by destruct (state ctx).
Qed.

Lemma run_log_bound (es : list Event) :
  ∀ w : World,
    ∃ extra, delivered (run es w).2 = delivered (w.2) ++ extra
             ∧ (length extra ≤ length (filter (λ e, is_check e = true) es))%nat.
Proof.
  induction es as [|e es IH]; intros w.
  - exists []. simpl. by rewrite app_nil_r.
  - destruct (IH (exec e w)) as (extra & Hlog & Hlen). simpl.
    destruct (is_check e) eqn:Hcheck.
    + rewrite filter_cons_True by done.
      destruct (exec_delivered e w) as [[Hsame|(cb & step & _ & Hone)] _].
      * exists extra. rewrite Hlog, Hsame. split; [done|]. simpl. lia.
      * exists ((cb, step) :: extra). rewrite Hlog, Hone, <- app_assoc.
        split; [done|]. simpl. lia.
    + rewrite filter_cons_False by (by rewrite Hcheck).
      exists extra. rewrite Hlog, exec_not_check by done. done.
Qed.

(** X4. However a clock is driven, it never calls subscribers more often
    than checks have run: the number of step calls made over a sequence of
    events is at most the number of timing checks among them, and the calls
    made before are never taken back or reordered. *)
Theorem no_more_steps_than_checks (es : list Event) (w : World) :
  (length (fired w (run es w))
   ≤ length (filter (λ e, is_check e = true) es))%nat
  ∧ delivered (run es w).2 = delivered (w.2) ++ fired w (run es w).
Proof.
  destruct (run_log_bound es w) as (extra & Hlog & Hlen).
  rewrite (fired_app _ _ _ Hlog). by split.
Qed.

Lemma run_log_subscriber (cb : Callback) (es : list Event) :
  ∀ w : World,
    onStepCallback (w.1) = Some cb →
    Forall (λ e, is_onStep e = false) es →
    ∃ extra, delivered (run es w).2 = delivered (w.2) ++ extra
             ∧ Forall (λ call, call.1 = cb) extra
             ∧ onStepCallback (run es w).1 = Some cb.
Proof.
  induction es as [|e es IH]; intros w Hcb Hes.
  - exists []. simpl. by rewrite app_nil_r.
  - inversion Hes as [|? ? He Hes']; subst.
    destruct (exec_delivered e w) as [Hlog Hkeep].
    specialize (Hkeep He). rewrite Hcb in Hkeep.
    destruct (IH (exec e w) Hkeep Hes') as (extra & Hlog' & Hall & Hcb').
    simpl. destruct Hlog as [Hsame|(cb' & step & Hreg & Hone)].
    + exists extra. by rewrite Hlog', Hsame.
    + exists ((cb', step) :: extra). rewrite Hlog', Hone, <- app_assoc.
      split; [done|]. split; [|done]. constructor; [|done].
      simpl. congruence.
Qed.

(** X5. The clock has one subscriber slot: once [onStep] has registered a
    subscriber, every step call made afterwards goes to that subscriber and
    to no earlier one, until [onStep] is called again. *)
Theorem onStep_replaces_subscriber
    (cb : Callback) (w : World) (es : list Event) :
  Forall (λ e, is_onStep e = false) es →
  Forall (λ call, call.1 = cb) (fired (onStep cb w) (run es (onStep cb w)))
  ∧ onStepCallback (run es (onStep cb w)).1 = Some cb.
Proof.
  intros Hes.
  assert (Hcb : onStepCallback (onStep cb w).1 = Some cb)
    by (by destruct w as [c p]).
  destruct (run_log_subscriber cb es (onStep cb w) Hcb Hes)
    as (extra & Hlog & Hall & Hcb').
  by rewrite (fired_app _ _ _ Hlog).
Qed.

(** [stalledClock], which already has subscriber 0, gets subscriber 1 and
    is then checked three times. *)
Lemma onStep_replaces_subscriber_witness :
  let w := onStep 1%nat (stalledClock, mkPage [7] 8 []) in
  let es := [Frame 6 7; RunCheck 7; Frame 8 8] in
  Forall (λ call, call.1 = 1%nat) (fired w (run es w))
  ∧ fired w (run es w) = [(1%nat, 15); (1%nat, 0); (1%nat, 1)].
Proof.
  intros w es.
  destruct (onStep_replaces_subscriber 1%nat (stalledClock, mkPage [7] 8 []) es)
    as [Hall _].
  { unfold es. repeat constructor. }
  split; [exact Hall|]. by vm_compute.
Defined.

End LogGrowth.

Section Accumulation.
Import AudioClock.
#[local] Open Scope Q_scope.

Lemma consecutiveSteps_S (cb : Callback) (step : Z) (n : nat) :
  (0 ≤ step < totalSteps)%Z →
  consecutiveSteps cb step (S n)
  = (cb, step) :: consecutiveSteps cb ((step + 1) mod totalSteps) n.
Proof.
  intros Hstep. unfold consecutiveSteps. simpl.
  rewrite Z.add_0_r, Z.mod_small by done. f_equal.
  rewrite <- seq_shift, List.map_map. apply List.map_ext. intros k.
  rewrite Zplus_mod_idemp_l. do 2 f_equal. lia.
Qed.

(** One check on a clock with a subscriber: either nothing moves, or the
    current step is delivered, the counter advances and the deadline grows
    by one step duration. *)
Lemma checkTiming_step (cb : Callback) (w : World) :
  onStepCallback (w.1) = Some cb → (0 ≤ currentStep (w.1) < totalSteps)%Z →
  onStepCallback (checkTiming w).1 = Some cb
  ∧ stepDuration (checkTiming w).1 = stepDuration (w.1)
  ∧ ((delivered (checkTiming w).2 = delivered (w.2)
      ∧ currentStep (checkTiming w).1 = currentStep (w.1)
      ∧ nextStepTime (checkTiming w).1 = nextStepTime (w.1))
     ∨ (delivered (checkTiming w).2
        = delivered (w.2) ++ [(cb, currentStep (w.1))]
        ∧ currentStep (checkTiming w).1
          = ((currentStep (w.1) + 1) mod totalSteps)%Z
        ∧ nextStepTime (checkTiming w).1
          = nextStepTime (w.1) + stepDuration (w.1))).
Proof.
  destruct w as [[ctx run tempo step handle t0 t1 d cb0] p]. simpl.
  intros -> Hstep. unfold checkTiming, triggerStep. simpl.
  destruct run; simpl; [|by repeat split; try left].
  destruct ctx as [ctx|]; simpl; [|by repeat split; try left].
  destruct (Qle_bool t1 (contextTime ctx)); simpl;
    [|by repeat split; try left].
  split; [done|]. split; [done|]. right.
  split; [done|]. split; [|done].
  unfold totalSteps in *. apply Z.rem_mod_nonneg; lia.
Qed.

Lemma advance_fields (now : Q) (w : World) :
  stepDuration (advance now w).1 = stepDuration (w.1)
  ∧ nextStepTime (advance now w).1 = nextStepTime (w.1)
  ∧ (advance now w).2 = w.2.
Proof. destruct w as [c p]. unfold advance. by destruct (audioContext c). Qed.

Lemma exec_check_step (cb : Callback) (e : Event) (w : World) :
  is_check e = true →
  onStepCallback (w.1) = Some cb → (0 ≤ currentStep (w.1) < totalSteps)%Z →
  onStepCallback (exec e w).1 = Some cb
  ∧ stepDuration (exec e w).1 = stepDuration (w.1)
  ∧ ((delivered (exec e w).2 = delivered (w.2)
      ∧ currentStep (exec e w).1 = currentStep (w.1)
      ∧ nextStepTime (exec e w).1 = nextStepTime (w.1))
     ∨ (delivered (exec e w).2 = delivered (w.2) ++ [(cb, currentStep (w.1))]
        ∧ currentStep (exec e w).1 = ((currentStep (w.1) + 1) mod totalSteps)%Z
        ∧ nextStepTime (exec e w).1
          = nextStepTime (w.1) + stepDuration (w.1))).
Proof.
  intros Hcheck Hcb Hstep.
  destruct e as [now handle|now|b s pf| |b|cb'|]; try done; unfold exec.
  - case_bool_decide; [|by repeat split; try left].
    pose proof (checkTiming_step cb
                  (advance now (w.1, cancelAnimationFrame handle (w.2)))) as Hck.
    destruct (advance_fields now (w.1, cancelAnimationFrame handle (w.2)))
      as (Hd & Hn & Hp).
    rewrite advance_onStepCallback, advance_currentStep, Hd, Hn, Hp in Hck.
    by apply Hck.
  - pose proof (checkTiming_step cb (advance now w)) as Hck.
    destruct (advance_fields now w) as (Hd & Hn & Hp).
    rewrite advance_onStepCallback, advance_currentStep, Hd, Hn, Hp in Hck.
    by apply Hck.
Qed.

Lemma run_checks_accumulate (cb : Callback) (es : list Event) :
  ∀ w : World,
    Forall (λ e, is_check e = true) es →
    onStepCallback (w.1) = Some cb → (0 ≤ currentStep (w.1) < totalSteps)%Z →
    ∃ n : nat,
      delivered (run es w).2
      = delivered (w.2) ++ consecutiveSteps cb (currentStep (w.1)) n
      ∧ currentStep (run es w).1
        = ((currentStep (w.1) + Z.of_nat n) mod totalSteps)%Z
      ∧ nextStepTime (run es w).1
        == nextStepTime (w.1) + inject_Z (Z.of_nat n) * stepDuration (w.1)
      ∧ stepDuration (run es w).1 = stepDuration (w.1).
Proof.
  induction es as [|e es IH]; intros w Hes Hcb Hstep.
  - exists 0%nat. simpl. rewrite app_nil_r, Z.add_0_r, Z.mod_small by done.
    repeat split; try done. unfold inject_Z. simpl. ring.
  - inversion Hes as [|? ? He Hes']; subst.
    destruct (exec_check_step cb e w He Hcb Hstep) as (Hcb' & Hd & Hmove).
    assert (Hstep' : (0 ≤ currentStep (exec e w).1 < totalSteps)%Z).
    { destruct Hmove as [(_ & -> & _)|(_ & -> & _)]; [done|].
      apply Z.mod_pos_bound. by unfold totalSteps. }
    destruct (IH (exec e w) Hes' Hcb' Hstep') as (n & Hlog & Hcs & Hnext & Hdur).
    simpl. rewrite Hd in *.
    destruct Hmove as [(Hlog0 & Hcs0 & Hnext0)|(Hlog0 & Hcs0 & Hnext0)];
      rewrite Hlog0, Hcs0, Hnext0 in *.
    + by exists n.
    + exists (S n). rewrite consecutiveSteps_S by done.
      split; [by rewrite Hlog, <- app_assoc|].
      split.
      { rewrite Hcs, Zplus_mod_idemp_l. f_equal. lia. }
      split; [|done].
      rewrite Hnext, Nat2Z.inj_succ. unfold Z.succ.
      rewrite inject_Z_plus. change (inject_Z 1) with 1. ring.
Qed.

(** X6. Over any sequence of timing checks, whenever they run, a clock
    with a subscriber delivers consecutive steps, each one once: with [n]
    the number of calls made, they are the steps [step], [step+1], ... modulo
    16 in this order, the counter ends [n] steps further, and the deadline
    ends exactly [n] step durations after the one it started from, so the
    times of the checks leave no trace in it. *)
Theorem checks_accumulate_without_drift
    (cb : Callback) (w : World) (es : list Event) :
  Forall (λ e, is_check e = true) es →
  onStepCallback (w.1) = Some cb →
  (0 ≤ currentStep (w.1) < totalSteps)%Z →
  fired w (run es w)
  = consecutiveSteps cb (currentStep (w.1)) (length (fired w (run es w)))
  ∧ currentStep (run es w).1
    = ((currentStep (w.1) + Z.of_nat (length (fired w (run es w))))
       mod totalSteps)%Z
  ∧ nextStepTime (run es w).1
    == nextStepTime (w.1)
       + inject_Z (Z.of_nat (length (fired w (run es w)))) * stepDuration (w.1).
Proof.
  intros Hes Hcb Hstep.
  destruct (run_checks_accumulate cb es w Hes Hcb Hstep)
    as (n & Hlog & Hcs & Hnext & _).
  rewrite (fired_app _ _ _ Hlog).
  assert (Hn : length (consecutiveSteps cb (currentStep (w.1)) n) = n).
  { unfold consecutiveSteps. by rewrite length_map, length_seq. }
  by rewrite Hn.
Qed.

(** [stalledClock] is checked at 5 s, 5.01 s, 9 s and 9.3 s: four steps
    fire, 15, 0, 1 and 2, and the deadline moves from 1 s to 1.5 s. *)
Lemma checks_accumulate_without_drift_witness :
  let w := (stalledClock, mkPage [7%Z] 8%Z []) in
  let es := [Frame 5 7%Z; Frame (501 # 100) 8%Z; RunCheck 9;
             Frame (93 # 10) 9%Z] in
  fired w (run es w) = [(0%nat, 15%Z); (0%nat, 0%Z); (0%nat, 1%Z); (0%nat, 2%Z)]
  ∧ currentStep (run es w).1 = 3%Z
  ∧ nextStepTime (run es w).1 == 3 # 2.
Proof.
  intros w es.
  destruct (checks_accumulate_without_drift 0%nat w es)
    as (Hfired & Hstep & Hnext);
    [unfold es; repeat constructor | reflexivity
    | unfold totalSteps; simpl; lia |].
  assert (Hlen : length (fired w (run es w)) = 4%nat) by (by vm_compute).
  rewrite Hlen in Hfired, Hstep, Hnext.
  split; [exact Hfired|]. split; [exact Hstep|].
  rewrite Hnext. by vm_compute.
Defined.

End Accumulation.

Section OneLoop.
Import AudioClock.









End OneLoop.

Section Destroying.
Import AudioClock.

Lemma destroy_isRunning (w : World) : isRunning (destroy w).1 = false.
Proof.
  unfold destroy. pose proof (stop_isRunning w) as Hrun.
  destruct (stop w) as [c p]. simpl in *.
  destruct (audioContext c) as [ctx|]; [|done]. by destruct (state ctx).
Qed.

(** X8. [destroy] leaves a stopped clock on step 0 that holds no audio
    context, unless the context it held was closed already, in which case
    it keeps it; nothing short of a new [start] makes the clock call a
    subscriber again, and a second [destroy] changes nothing. *)
Theorem destroy_releases_and_silences (w : World) :
  isRunning (destroy w).1 = false
  ∧ currentStep (destroy w).1 = 0
  ∧ (audioContext (destroy w).1 = None
     ∨ ∃ ctx, audioContext (w.1) = Some ctx ∧ state ctx = closed
              ∧ audioContext (destroy w).1 = Some ctx)
  ∧ (∀ es, Forall (λ e, is_start e = false) es →
           fired w (run es (destroy w)) = [])
  ∧ destroy (destroy w) = destroy w.
Proof.
  split; [apply destroy_isRunning|].
  assert (Hshape :
    currentStep (destroy w).1 = 0
    ∧ (audioContext (destroy w).1 = None
       ∨ ∃ ctx, audioContext (w.1) = Some ctx ∧ state ctx = closed
                ∧ audioContext (destroy w).1 = Some ctx)
    ∧ delivered (destroy w).2 = delivered (w.2)
    ∧ destroy (destroy w) = destroy w).
  { destruct w as [[ctx run tempo step handle t0 t1 d cb] p].
    unfold destroy, stop. simpl.
    destruct handle as [handle|]; simpl.
    - destruct (handle =? 0) eqn:Hzero; simpl.
      + destruct ctx as [[[] now]|]; simpl; rewrite ?Hzero; simpl;
          repeat split; try done; try (by left);
          right; by eexists.
      + destruct ctx as [[[] now]|]; simpl;
          repeat split; try done; try (by left);
          right; by eexists.
    - destruct ctx as [[[] now]|]; simpl;
        repeat split; try done; try (by left);
        right; by eexists. }
  destruct Hshape as (Hstep & Hctx & Hdel & Hagain).
  split; [done|]. split; [done|]. split; [|done].
  intros es Hes.
  destruct (run_stopped es (destroy w) (destroy_isRunning w) Hes) as [_ Hlog].
  apply fired_nothing. by rewrite Hlog.
Qed.

End Destroying.

Section ReachableClocks.
Import AudioClock.
#[local] Open Scope Q_scope.



End ReachableClocks.

(* ================================================================== *)
(** * More on the pad grid *)
(* ================================================================== *)

Section GridEdits.
Import Sequencer.

Implicit Types (g : list (list bool)) (row : list bool).

Lemma toggleRow_comm (s1 s2 : Z) row :
  toggleRow s1 (toggleRow s2 row) = toggleRow s2 (toggleRow s1 row).
Proof.
  apply list_eq. intros j. rewrite !toggleRow_lookup.
  destruct (row !! j) as [pad|]; simpl; [|done].
  by destruct (Z.of_nat j =? s1), (Z.of_nat j =? s2).
Qed.

Lemma newGrid_comm (c1 s1 c2 s2 : Z) g :
  newGrid c1 s1 (newGrid c2 s2 g) = newGrid c2 s2 (newGrid c1 s1 g).
Proof.
  apply list_eq. intros i. rewrite !newGrid_lookup.
  destruct (g !! i) as [row|]; simpl; [|done].
  destruct (Z.of_nat i =? c1), (Z.of_nat i =? c2); try done.
  by rewrite toggleRow_comm.
Qed.

(** X9. Pad toggles commute: toggling two pads, the same one or different
    ones, on the grid or off it, gives the same state in either order. *)
Theorem togglePad_order_irrelevant
    (st : SequencerState) (c1 s1 c2 s2 : Z) :
  ∃ st1 st2 st12,
    togglePad c1 s1 st = Returns st1
    ∧ togglePad c2 s2 st = Returns st2
    ∧ togglePad c2 s2 st1 = Returns st12
    ∧ togglePad c1 s1 st2 = Returns st12.
Proof.
  do 3 eexists. split; [reflexivity|]. split; [reflexivity|].
  split; [reflexivity|]. unfold togglePad. simpl.
  by rewrite newGrid_comm.
Qed.

(** X10. On a grid of 8 channels of 16 steps every index
    [getActiveChannels] returns is a channel, at most 8 are returned, and a
    step index outside [0,16) has no active channel at all. *)
Theorem getActiveChannels_in_range (st : SequencerState) (stepIndex : Z) :
  grid_wf (grid st) →
  Forall (λ ch, 0 ≤ ch < 8) (getActiveChannels st stepIndex)
  ∧ (length (getActiveChannels st stepIndex) ≤ 8)%nat
  ∧ (¬ (0 ≤ stepIndex < 16) → getActiveChannels st stepIndex = []).
Proof.
  intros [Hlen Hrows]. split; [|split].
  - apply Forall_forall. intros ch Hch.
    apply elem_of_getActiveChannels in Hch.
    apply cell_Some in Hch as (i & j & row & -> & _ & Hrow & _).
    apply lookup_lt_Some in Hrow. lia.
  - unfold getActiveChannels.
    etransitivity; [apply length_filter|]. rewrite length_imap. lia.
  - intros Hout. apply elem_of_nil_inv. intros ch Hch.
    apply elem_of_getActiveChannels in Hch.
    apply cell_Some in Hch as (i & j & row & -> & -> & Hrow & Hpad).
    pose proof (Forall_lookup_1 _ _ _ _ Hrows Hrow) as H16. simpl in H16.
    apply lookup_lt_Some in Hpad. lia.
Qed.

Lemma threePads_wf : grid_wf (grid threePads).
Proof. simpl. do 3 apply newGrid_wf. apply initializeGrid_wf. Qed.

(** Step 4 of [threePads], and step 16, which is off the grid. *)
Lemma getActiveChannels_in_range_witness :
  Forall (λ ch, 0 ≤ ch < 8) (getActiveChannels threePads 4)
  ∧ (length (getActiveChannels threePads 4) ≤ 8)%nat
  ∧ getActiveChannels threePads 16 = [].
Proof.
  destruct (getActiveChannels_in_range threePads 4 threePads_wf)
    as (Hrange & Hlen & _).
  destruct (getActiveChannels_in_range threePads 16 threePads_wf)
    as (_ & _ & Hout).
  split; [exact Hrange|]. split; [exact Hlen|]. apply Hout. lia.
Defined.

(** X11. After [togglePad] at a coordinate of the grid the channel is
    active on that step exactly when it was not before, and the activity of
    every other channel and step is what it was. *)
Theorem togglePad_flips_activity
    (st : SequencerState) (channel step : Z) :
  grid_wf (grid st) → 0 ≤ channel < 8 → 0 ≤ step < 16 →
  ∃ st1,
    togglePad channel step st = Returns st1
    ∧ (channel ∈ getActiveChannels st1 step
       ↔ channel ∉ getActiveChannels st step)
    ∧ (∀ ch s, (ch, s) ≠ (channel, step) →
               ch ∈ getActiveChannels st1 s ↔ ch ∈ getActiveChannels st s).
Proof.
  intros Hwf Hc Hs. eexists. split; [reflexivity|]. simpl.
  destruct (cell_in_bounds (grid st) channel step Hwf) as [b Hb]; [done|].
  split.
  - rewrite !elem_of_getActiveChannels. simpl.
    rewrite cell_newGrid, Hb. simpl. rewrite !Z.eqb_refl. simpl.
    destruct b; simpl; split; congruence.
  - intros ch s Hne. rewrite !elem_of_getActiveChannels. simpl.
    rewrite cell_newGrid.
    destruct (Z.eqb_spec ch channel) as [->|]; simpl.
    + destruct (Z.eqb_spec s step) as [->|]; [done|].
      destruct (cell (grid st) channel s); reflexivity.
    + destruct (cell (grid st) ch s); reflexivity.
Qed.

(** Channel 3 is switched on at step 4 of [threePads]. *)
Lemma togglePad_flips_activity_witness :
  ∃ st1,
    togglePad 3 4 threePads = Returns st1
    ∧ (3 ∈ getActiveChannels st1 4 ↔ 3 ∉ getActiveChannels threePads 4)
    ∧ getActiveChannels st1 4 = [0; 2; 3; 5].
Proof.
  destruct (togglePad_flips_activity threePads 3 4 threePads_wf)
    as (st1 & Hst1 & Hflip & _); [lia|lia|].
  exists st1. split; [exact Hst1|]. split; [exact Hflip|].
  injection Hst1 as <-. reflexivity.
Defined.

End GridEdits.

Section GridClearing.
Import Sequencer.

Lemma cell_clearChannel (c c' s' : Z) (st : SequencerState) :
  cell (grid (clearChannel c st)) c' s' = Some true
  ↔ c' ≠ c ∧ cell (grid st) c' s' = Some true.
Proof.
  rewrite !cell_Some. unfold clearChannel. cbn [grid]. split.
  - intros (i & j & row & -> & -> & Hrow & Hpad).
    rewrite list_lookup_imap in Hrow.
    apply fmap_Some in Hrow as (row0 & Hrow0 & ->).
    destruct (Z.eqb_spec (Z.of_nat i) c) as [Hc|Hc].
    + by apply lookup_replicate in Hpad as [? _].
    + split; [done|]. by exists i, j, row0.
  - intros (Hne & i & j & row & -> & -> & Hrow & Hpad).
    exists i, j, row. rewrite list_lookup_imap, Hrow. simpl.
    by destruct (Z.eqb_spec (Z.of_nat i) c).
Qed.

(** X12. After [clearChannel] the cleared channel is active on no step and
    every other channel is active exactly where it was; tempo, step and
    playing flag are kept, and so is the 8 by 16 shape.  A channel index
    off the grid clears nothing. *)
Theorem clearChannel_silences_one_channel
    (st : SequencerState) (channelIndex : Z) :
  (∀ s ch, ch ∈ getActiveChannels (clearChannel channelIndex st) s
           ↔ ch ≠ channelIndex ∧ ch ∈ getActiveChannels st s)
  ∧ isPlaying (clearChannel channelIndex st) = isPlaying st
  ∧ currentStep (clearChannel channelIndex st) = currentStep st
  ∧ bpm (clearChannel channelIndex st) = bpm st
  ∧ (grid_wf (grid st) → grid_wf (grid (clearChannel channelIndex st)))
  ∧ (¬ (0 ≤ channelIndex < Z.of_nat (length (grid st))) →
     clearChannel channelIndex st = st).
Proof.
  split.
  { intros s ch. rewrite !elem_of_getActiveChannels. apply cell_clearChannel. }
  split; [done|]. split; [done|]. split; [done|].
  split; [apply clearChannel_wf|].
  intros Hout. destruct st as [g playing step tempo].
  unfold clearChannel. simpl in *. f_equal.
  apply list_eq. intros i. rewrite list_lookup_imap.
  destruct (g !! i) as [row|] eqn:Hrow; simpl; [|done].
  apply lookup_lt_Some in Hrow.
  destruct (Z.eqb_spec (Z.of_nat i) channelIndex); [lia|done].
Qed.

(** Channel 2 of [threePads] is cleared: channels 0 and 5 stay on step 4. *)
Lemma clearChannel_silences_one_channel_witness :
  (2 ∉ getActiveChannels (clearChannel 2 threePads) 4)
  ∧ (5 ∈ getActiveChannels (clearChannel 2 threePads) 4)
  ∧ clearChannel 8 threePads = threePads.
Proof.
  destruct (clearChannel_silences_one_channel threePads 2) as (Hmem & _).
  destruct (clearChannel_silences_one_channel threePads 8)
    as (_ & _ & _ & _ & _ & Hout).
  split; [|split].
  - rewrite Hmem. intros [Hne _]. by apply Hne.
  - rewrite Hmem. split; [lia|]. by apply elem_of_getActiveChannels.
  - apply Hout. simpl. lia.
Defined.

(** X13. After [clearGrid] no step has an active channel, whatever the grid
    held; the grid has the 8 by 16 shape again, and tempo, step and playing
    flag are kept. *)
Theorem clearGrid_silences_every_step (st : SequencerState) :
  (∀ s, getActiveChannels (clearGrid st) s = [])
  ∧ grid_wf (grid (clearGrid st))
  ∧ isPlaying (clearGrid st) = isPlaying st
  ∧ currentStep (clearGrid st) = currentStep st
  ∧ bpm (clearGrid st) = bpm st.
Proof.
  split; [|by split; [apply initializeGrid_wf|]].
  intros s. apply elem_of_nil_inv. intros ch Hch.
  apply elem_of_getActiveChannels in Hch.
  by apply (initialState_column_empty s ch).
Qed.

End GridClearing.

(* ================================================================== *)
(** * More on the connection hook *)
(* ================================================================== *)

Section Senders.
Import WebSocket.

(** The message a request puts on the wire. *)
Lemma call_is_sendMessage
    (socket : WebSocketMessage → Wire → Wire * option string)
    (r : Request) :
  ∃ m, type m = requestType r
       ∧ (r = CallStopChannels None → data m = StopChannelsCommand [])
       ∧ ∀ h w, call socket r h w = sendMessage socket m h w.
Proof.
  destruct r as [channels duration|channel duration|channels|timestamp];
    eexists; (split; [|split; [|intros h w; reflexivity]]);
    try done.
  intros [= ->]. done.
Qed.

(** X14. The four senders of the hook ([triggerGPIO], [triggerImmediate],
    [stopChannels], [ping]) behave alike.  Not connected: the answer is
    false, the socket is not called, and the only trace is [lastError];
    [onError] is not told.  Connected, and the socket takes the message: the
    answer is true and the state of the hook is untouched, an earlier
    [lastError] included.  Connected, and the socket throws: the answer is
    false, [lastError] is the text of the failure and [onError] is told
    once. *)
Theorem senders_share_one_gate
    (socket : WebSocketMessage → Wire → Wire * option string)
    (r : Request) (h : Hook) (w : Wire) :
  (isConnected h = false →
     call socket r h w = (false, setLastError "WebSocket not connected" h, w)
     ∧ reported (call socket r h w).1.2 = reported h)
  ∧ (isConnected h = true →
     ∃ m, type m = requestType r
          ∧ (∀ w', socket m w = (w', None) →
                   call socket r h w = (true, h, w'))
          ∧ (∀ w' error, socket m w = (w', Some error) →
               (call socket r h w).1.1 = false
               ∧ (call socket r h w).2 = w'
               ∧ lastError (call socket r h w).1.2
                 = Some (String.append "Failed to send message: " error)
               ∧ reported (call socket r h w).1.2
                 = reported h
                   ++ [String.append "Failed to send message: " error]
               ∧ readyState (call socket r h w).1.2 = readyState h)).
Proof.
  destruct (call_is_sendMessage socket r) as (m & Htype & _ & Hcall).
  rewrite Hcall. split.
  - intros Hclosed. by rewrite (sendMessage_not_connected m h w Hclosed socket).
  - intros Hopen. exists m. split; [done|]. split.
    + intros w' Hsent. by apply sendMessage_accepted.
    + intros w' error Hsent. unfold sendMessage. by rewrite Hopen, Hsent.
Qed.

(** A key press while disconnected, and a stop of all channels while
    connected. *)
Lemma senders_share_one_gate_witness :
  call acceptingSocket (CallTriggerImmediate 3 50) disconnectedHook []
  = (false, setLastError "WebSocket not connected" disconnectedHook, [])
  ∧ ∃ m, type m = stop_channels
         ∧ call acceptingSocket (CallStopChannels None) connectedHook []
           = (true, connectedHook, [m]).
Proof.
  split.
  - destruct (senders_share_one_gate
                acceptingSocket (CallTriggerImmediate 3 50) disconnectedHook [])
      as [Hclosed _].
    by destruct (Hclosed eq_refl) as [-> _].
  - destruct (senders_share_one_gate
                acceptingSocket (CallStopChannels None) connectedHook [])
      as [_ Hopen].
    destruct (Hopen eq_refl) as (m & Htype & Hsent & _).
    exists m. split; [exact Htype|]. by apply Hsent.
Defined.

End Senders.

Section ReceivingFacts.
Import WebSocket.




End ReceivingFacts.

Section Handlers.
Import WebSocket.

(** X17. Registration and the function it returns work on the type alone.
    A registration followed by its unsubscription restores a table that had
    no handler for the type; a handler for another type is never touched;
    and the unsubscription of an earlier registration removes whatever
    handler the type has by then, a later one included, so the
    later subscriber is cut off. *)
Theorem unsubscribe_forgets_the_type
    (t : string) (first later : Handler) (s : Session) :
  (messageHandlers s !! t = None → unsubscribe t (onMessage t first s) = s)
  ∧ (∀ t', t' ≠ t →
       messageHandlers (unsubscribe t (onMessage t first s)) !! t'
       = messageHandlers s !! t')
  ∧ messageHandlers (onMessage t later (onMessage t first s)) !! t = Some later
  ∧ messageHandlers (unsubscribe t (onMessage t later (onMessage t first s)))
      !! t = None.
Proof.
  split; [|split; [|split]].
  - intros Hfresh. destruct s as [h status handlers calls].
    unfold unsubscribe, onMessage. simpl in *. f_equal.
    by apply delete_insert_id.
  - intros t' Hne. simpl. by rewrite lookup_delete_ne, lookup_insert_ne.
  - simpl. by rewrite lookup_insert_eq.
  - simpl. by rewrite lookup_delete_eq.
Qed.

(** Two handlers for [pong] on the new session. *)
Lemma unsubscribe_forgets_the_type_witness :
  unsubscribe "pong" (onMessage "pong" 1%nat newSession) = newSession
  ∧ messageHandlers
      (unsubscribe "pong"
         (onMessage "pong" 2%nat (onMessage "pong" 1%nat newSession)))
      !! "pong" = None.
Proof.
  destruct (unsubscribe_forgets_the_type "pong" 1%nat 2%nat newSession)
    as (Hfresh & _ & _ & Hcut).
  split; [by apply Hfresh|exact Hcut].
Defined.

(** X18. A handler is called for the messages of its type and for no
    others: after [onMessage t handler], [handleMessage] calls [handler]
    with a message of type [t], once and before anything else is called;
    on a message of another type the calls made are the ones that would
    have been made without the registration. *)
Theorem onMessage_routes_by_type
    (handlerThrows : Handler → ServerMessage → option string)
    (t : string) (handler : Handler) (message : ServerMessage) (s : Session) :
  (messageType message = t →
     handled (handleMessage handlerThrows message (onMessage t handler s))
     = handled s ++ [(handler, message)])
  ∧ (messageType message ≠ t →
     handled (handleMessage handlerThrows message (onMessage t handler s))
     = handled (handleMessage handlerThrows message s)).
Proof.
  split.
  - intros <-. unfold handleMessage.
    destruct message as [status|error channel|t payload]; simpl;
      rewrite lookup_insert_eq; simpl;
      by destruct (handlerThrows handler _).
  - intros Hne. unfold handleMessage.
    destruct message as [status|error channel|t' payload]; simpl in *;
      rewrite lookup_insert_ne by done;
      (destruct (messageHandlers s !! _) as [other|]; simpl; [|done]);
      by destruct (handlerThrows other _).
Qed.

(** A handler for [pong] sees the [pong] and not the [error]. *)
Lemma onMessage_routes_by_type_witness :
  handled (handleMessage (λ _ _, None) (other_message "pong" "")
                         (onMessage "pong" 4%nat newSession))
  = [(4%nat, other_message "pong" "")]
  ∧ handled (handleMessage (λ _ _, None) (error_message "denied" (Some 2))
                           (onMessage "pong" 4%nat newSession))
    = [].
Proof.
  split.
  - by apply (proj1 (onMessage_routes_by_type
                       (λ _ _, None) "pong" 4%nat
                       (other_message "pong" "") newSession)).
  - rewrite (proj2 (onMessage_routes_by_type
                      (λ _ _, None) "pong" 4%nat
                      (error_message "denied" (Some 2)) newSession));
      [reflexivity|done].
Defined.

End Handlers.

(* ================================================================== *)
(** * The hook and its clock *)
(* ================================================================== *)

Section HookAndClock.
Import AudioClock.
#[local] Open Scope Q_scope.

Lemma checkTiming_keeps (w : World) :
  isRunning (checkTiming w).1 = isRunning (w.1)
  ∧ bpm (checkTiming w).1 = bpm (w.1).
Proof.
  destruct w as [[ctx run tempo step handle t0 t1 d cb] p].
  unfold checkTiming, triggerStep. simpl.
  destruct run; simpl; [|done].
  destruct ctx as [ctx|]; simpl; [|done].
  by destruct (Qle_bool t1 (contextTime ctx)).
Qed.

Lemma advance_bpm (now : Q) (w : World) :
  bpm (advance now w).1 = bpm (w.1).
Proof. destruct w as [c p]. unfold advance. by destruct (audioContext c). Qed.

Lemma frame_keeps (now : Q) (handle : Z) (w : World) :
  isRunning (exec (Frame now handle) w).1 = isRunning (w.1)
  ∧ bpm (exec (Frame now handle) w).1 = bpm (w.1).
Proof.
  unfold exec. case_bool_decide; [|done].
  destruct (checkTiming_keeps
              (advance now (w.1, cancelAnimationFrame handle (w.2))))
    as [-> ->].
  by rewrite advance_isRunning, advance_bpm.
Qed.

Lemma stop_bpm (w : World) : bpm (stop w).1 = bpm (w.1).
Proof.
  destruct w as [[ctx run tempo step [handle|] t0 t1 d cb] p];
    unfold stop; simpl; [|done].
  by destruct (handle =? 0)%Z.
Qed.

(** The eight parts of [SequencerHook.in_step]. *)
Ltac split_in_step :=
  split; [|split; [|split; [|split; [|split; [|split; [|split]]]]]].

Lemma clampBpm_clamped (q : Q) : clampBpm (clampBpm q) == clampBpm q.
Proof. destruct (clampBpm_range q). by apply clampBpm_inside. Qed.

Lemma mounted_in_step : SequencerHook.in_step SequencerHook.mounted.
Proof.
  unfold SequencerHook.in_step. simpl.
  split; [done|]. split; [reflexivity|]. split; [done|]. split; [lia|].
  split; [by left|]. split; [done|].
  split; [apply initializeGrid_wf|apply newClock_ok].
Qed.

(** The three updates of the grid keep the agreement. *)
Lemma grid_update_in_step (m : SequencerHook.Mounted) (g : list (list bool)) :
  Sequencer.grid_wf g → SequencerHook.in_step m →
  SequencerHook.in_step
    {| SequencerHook.state :=
         {| Sequencer.grid := g;
            Sequencer.isPlaying := Sequencer.isPlaying (SequencerHook.state m);
            Sequencer.currentStep :=
              Sequencer.currentStep (SequencerHook.state m);
            Sequencer.bpm := Sequencer.bpm (SequencerHook.state m) |};
       SequencerHook.clockRef := SequencerHook.clockRef m |}.
Proof.
  unfold SequencerHook.in_step. simpl.
  intros Hwf (H1 & H2 & H3 & H4 & H5 & H6 & _ & H8). split_in_step; done.
Qed.

Lemma setBpm_in_step (q : Q) (m : SequencerHook.Mounted) :
  SequencerHook.in_step m → SequencerHook.in_step (SequencerHook.setBpm q m).
Proof.
  unfold SequencerHook.in_step, SequencerHook.setBpm. simpl.
  intros (Hplay & Hbpm & Hcb & Hst & Hahead & Hidle & Hwf & Hok).
  destruct (setBpm_frame (Qmax 80 (Qmin 200 q)) (SequencerHook.clockRef m))
    as (_ & Hstep & Hrun).
  rewrite Hstep, Hrun, setBpm_onStepCallback.
  split; [done|]. split.
  { rewrite (setBpm_bpm (Qmax 80 (Qmin 200 q)) (SequencerHook.clockRef m)).
    symmetry. apply clampBpm_clamped. }
  split; [done|]. split; [done|]. split; [done|]. split; [done|].
  split; [done|]. by apply setBpm_ok.
Qed.

Lemma stop_in_step (m : SequencerHook.Mounted) :
  SequencerHook.in_step m → SequencerHook.in_step (SequencerHook.stop m).
Proof.
  unfold SequencerHook.stop.
  destruct (Sequencer.isPlaying (SequencerHook.state m)); [|done].
  unfold SequencerHook.in_step. simpl.
  intros (Hplay & Hbpm & Hcb & Hst & Hahead & Hidle & Hwf & Hok).
  rewrite stop_isRunning, stop_currentStep, stop_bpm, stop_onStepCallback.
  split; [done|]. split; [done|]. split; [done|]. split; [lia|].
  split; [by left|]. split; [done|]. split; [done|]. by apply stop_ok.
Qed.

Lemma play_in_step (pf : Platform) (m : SequencerHook.Mounted) :
  SequencerHook.in_step m → SequencerHook.in_step (SequencerHook.play pf m).
Proof.
  unfold SequencerHook.play.
  destruct (Sequencer.isPlaying (SequencerHook.state m)) eqn:Hplaying; [done|].
  intros Hin. pose proof Hin as Hin'. revert Hin'.
  unfold SequencerHook.in_step at 1. rewrite Hplaying.
  intros (Hplay & Hbpm & Hcb & Hst & Hahead & Hidle & Hwf & Hok).
  destruct (SequencerHook.clockRef m) as [c p] eqn:Hclock.
  cbn [fst snd] in *. symmetry in Hplay.
  pose proof (start_ok (Sequencer.bpm (SequencerHook.state m)) 0 pf (c, p))
    as Hok'.
  destruct (initialize pf c).1 eqn:Hinit.
  - destruct (start_initialized
                (Sequencer.bpm (SequencerHook.state m)) 0 pf c p Hplay Hinit)
      as (ctx & _ & Hstart).
    rewrite Hstart in *. unfold SequencerHook.in_step. simpl.
    split; [done|]. split.
    { symmetry. destruct Hok as (Hlo & Hhi & _).
      apply clampBpm_inside; by rewrite Hbpm. }
    split; [done|]. split; [lia|]. split; [by left|].
    split; [done|]. split; [done|].
    apply Hok'; [by unfold totalSteps|done].
  - destruct (start_uninitialized
                (Sequencer.bpm (SequencerHook.state m)) 0 pf c p Hplay Hinit)
      as (ctx & Hstart).
    rewrite Hstart in *. unfold SequencerHook.in_step. simpl.
    rewrite Hplaying, Hplay.
    split; [done|]. split; [done|]. split; [done|]. split; [done|].
    split; [done|]. split; [done|]. split; [done|].
    apply Hok'; [by unfold totalSteps|done].
Qed.

Lemma frame_in_step (now : Q) (handle : Z) (m : SequencerHook.Mounted) :
  SequencerHook.in_step m →
  SequencerHook.in_step (SequencerHook.frame now handle m).1.
Proof.
  unfold SequencerHook.in_step, SequencerHook.frame.
  cbn [fst SequencerHook.state SequencerHook.clockRef].
  intros (Hplay & Hbpm & Hcb & Hst & Hahead & Hidle & Hwf & Hok).
  pose proof (exec_ok (Frame now handle) (SequencerHook.clockRef m) I Hok)
    as Hok'.
  destruct (frame_keeps now handle (SequencerHook.clockRef m)) as [Hrun Htempo].
  assert (Hclock : (0 ≤ currentStep (SequencerHook.clockRef m).1 < totalSteps)%Z)
    by (by destruct Hok as (_ & _ & ? & _)).
  destruct (exec_check_step SequencerHook.hookSubscriber (Frame now handle)
              (SequencerHook.clockRef m) eq_refl Hcb Hclock)
    as (Hcb' & _ & [(Hlog & Hstep & _)|(Hlog & Hstep & _)]).
  - rewrite (fired_nothing _ _ Hlog), Hrun, Htempo, Hstep.
    split_in_step; done.
  - rewrite (fired_one _ _ _ Hlog), Hrun, Htempo, Hstep.
    cbn [fmap list_fmap foldl snd SequencerHook.setCurrentStep
         Sequencer.isPlaying Sequencer.bpm Sequencer.currentStep
         Sequencer.grid].
    unfold totalSteps in *. split_in_step; try done.
    + by right.
    + intros Hidle'. rewrite Hidle' in Hplay. symmetry in Hplay.
      destruct (exec_stopped (Frame now handle) (SequencerHook.clockRef m)
                  Hplay eq_refl) as [_ Hsame].
      rewrite Hsame in Hlog. apply (f_equal length) in Hlog.
      rewrite length_app in Hlog. simpl in Hlog. lia.
Qed.

Lemma act_in_step (a : SequencerHook.Action) (m : SequencerHook.Mounted) :
  SequencerHook.in_step m → SequencerHook.in_step (SequencerHook.act a m).
Proof.
  intros Hin. pose proof Hin as (_ & _ & _ & _ & _ & _ & Hwf & _).
  destruct a as [c s| |c|b|pf| |pf|now handle]; simpl.
  - apply (grid_update_in_step m); [by apply newGrid_wf|done].
  - apply (grid_update_in_step m); [apply initializeGrid_wf|done].
  - apply (grid_update_in_step m); [|done].
    apply (clearChannel_wf c (SequencerHook.state m) Hwf).
  - by apply setBpm_in_step.
  - by apply play_in_step.
  - by apply stop_in_step.
  - unfold SequencerHook.togglePlayback.
    destruct (Sequencer.isPlaying _); [by apply stop_in_step|].
    by apply play_in_step.
  - by apply frame_in_step.
Qed.



End HookAndClock.

(* ================================================================== *)
(** * The application *)
(* ================================================================== *)

Section KeysAndClicks.
Import App.

Lemma keyChannelMap_Some (k : string) (ch : Z) :
  keyChannelMap !! k = Some ch ↔
  (k, ch) ∈ [("KeyQ", 0); ("KeyW", 1); ("KeyE", 2); ("KeyR", 3);
             ("KeyT", 4); ("KeyY", 5); ("KeyU", 6); ("KeyI", 7)].
Proof.
  unfold keyChannelMap. rewrite <- elem_of_list_to_map; [done|].
  apply (bool_decide_unpack _). by vm_compute.
Qed.

Lemma keyChannelMap_range (k : string) (ch : Z) :
  keyChannelMap !! k = Some ch → 0 ≤ ch < 8 ∧ k ≠ "Space".
Proof.
  intros Hk%keyChannelMap_Some.
  repeat (apply elem_of_cons in Hk as [[= -> ->]|Hk]; [split; [lia|done]|]).
  by apply elem_of_nil in Hk.
Qed.

Lemma sendMessage_wire
    (socket : WebSocket.WebSocketMessage → WebSocket.Wire
              → WebSocket.Wire * option string)
    (m : WebSocket.WebSocketMessage) (h : WebSocket.Hook) (w : WebSocket.Wire) :
  faithful socket →
  (WebSocket.sendMessage socket m h w).2 = w
  ∨ (WebSocket.sendMessage socket m h w).2 = w ++ [m].
Proof.
  intros Hsocket. unfold WebSocket.sendMessage.
  destruct (WebSocket.isConnected h); simpl; [|by left].
  specialize (Hsocket m w).
  by destruct (socket m w) as [w' [error|]].
Qed.



End KeysAndClicks.

Section StepDispatch.
Import App.

Lemma getActiveChannels_sorted (st : Sequencer.SequencerState) (step : Z) :
  StronglySorted Z.lt (Sequencer.getActiveChannels st step).
Proof.
  unfold Sequencer.getActiveChannels.
  apply (marks_sorted (Sequencer.grid st) 0).
  intros i row. destruct (js_truthy _); [by right|by left].
Qed.

Lemma getActiveChannels_bounded (st : Sequencer.SequencerState) (step : Z) :
  Sequencer.grid_wf (Sequencer.grid st) →
  Forall (λ ch, 0 ≤ ch < 8) (Sequencer.getActiveChannels st step).
Proof.
  intros [Hlen _]. apply Forall_forall. intros ch Hch.
  apply elem_of_getActiveChannels in Hch.
  apply cell_Some in Hch as (i & j & row & -> & _ & Hrow & _).
  apply lookup_lt_Some in Hrow. lia.
Qed.

(** X21. [handleStep] sends nothing for a step with no active pad: the
    application is left as it was, even when the socket is down, so no
    error is recorded for it.  For a step with active pads, connected to a
    socket that takes the message, it adds exactly one message to the wire:
    a [gpio_trigger] of 50 ms that lists the channels active on that step,
    all of them and no other. *)
Theorem handleStep_sends_the_column
    (socket : WebSocket.WebSocketMessage → WebSocket.Wire
              → WebSocket.Wire * option string)
    (step : Z) (a : Running) :
  ((∀ ch, Sequencer.cell
            (Sequencer.grid (SequencerHook.state (sequencer a))) ch step
          ≠ Some true) →
   handleStep socket step a = a)
  ∧ (∀ ch0,
       Sequencer.cell
         (Sequencer.grid (SequencerHook.state (sequencer a))) ch0 step
       = Some true →
       WebSocket.isConnected (connection a) = true →
       (∀ m w, socket m w = (w ++ [m], None)) →
       ∃ channels,
         handleStep socket step a
         = {| sequencer := sequencer a; connection := connection a;
              wire := wire a
                      ++ [{| WebSocket.type := WebSocket.gpio_trigger;
                             WebSocket.data :=
                               WebSocket.GPIOCommand channels 50 |}] |}
         ∧ ∀ ch, ch ∈ channels
                 ↔ Sequencer.cell
                     (Sequencer.grid (SequencerHook.state (sequencer a)))
                     ch step
                   = Some true).
Proof.
  split.
  - intros Hnone. unfold handleStep.
    assert (Hempty : Sequencer.getActiveChannels
                       (SequencerHook.state (sequencer a)) step = []).
    { apply elem_of_nil_inv. intros ch Hch.
      apply elem_of_getActiveChannels in Hch. by apply (Hnone ch). }
    by rewrite Hempty.
  - intros ch0 Hch0 Hopen Hsocket. unfold handleStep.
    exists (Sequencer.getActiveChannels
              (SequencerHook.state (sequencer a)) step).
    split; [|intros ch; apply elem_of_getActiveChannels].
    apply elem_of_getActiveChannels in Hch0.
    destruct (Sequencer.getActiveChannels _ step) as [|ch chs] eqn:Hactive;
      [by apply elem_of_nil in Hch0|].
    simpl. unfold WebSocket.triggerGPIO, WebSocket.sendMessage, sent.
    by rewrite Hopen, Hsocket.
Qed.

(** Step 3 of [threePads], which is empty: nothing; step 4, connected: one
    batch, which lists channel 2 and not channel 3. *)
Lemma handleStep_sends_the_column_witness :
  let a := {| sequencer := {| SequencerHook.state := Sequencer.threePads;
                              SequencerHook.clockRef :=
                                (AudioClock.newClock, AudioClock.newPage) |};
              connection := WebSocket.connectedHook; wire := [] |} in
  handleStep WebSocket.acceptingSocket 3 a = a
  ∧ ∃ channels,
      wire (handleStep WebSocket.acceptingSocket 4 a)
      = [{| WebSocket.type := WebSocket.gpio_trigger;
            WebSocket.data := WebSocket.GPIOCommand channels 50 |}]
      ∧ 2 ∈ channels ∧ 3 ∉ channels.
Proof.
  intros a.
  destruct (handleStep_sends_the_column WebSocket.acceptingSocket 3 a)
    as [Hnone _].
  destruct (handleStep_sends_the_column WebSocket.acceptingSocket 4 a)
    as [_ Hsome].
  split.
  - apply Hnone. intros ch H.
    apply elem_of_getActiveChannels in H. by apply elem_of_nil in H.
  - destruct (Hsome 0) as (channels & Hsent & Hmem); [done|done|done|].
    exists channels. rewrite Hsent. split; [done|].
    split; [by apply Hmem|]. by rewrite Hmem.
Defined.

End StepDispatch.

Section WireShape.
Import App.

Variable socket
  : WebSocket.WebSocketMessage → WebSocket.Wire → WebSocket.Wire * option string.
Hypothesis socket_faithful : faithful socket.

Lemma sent_shipshape
    (m : WebSocket.WebSocketMessage) (a : Running) :
  command_ok m → shipshape a →
  shipshape (sent (WebSocket.sendMessage socket m (connection a) (wire a)) a).
Proof.
  intros Hm [Hstep Hwire]. split; [done|]. simpl.
  destruct (sendMessage_wire socket m (connection a) (wire a) socket_faithful)
    as [->| ->]; [done|].
  apply Forall_app. split; [done|]. by constructor.
Qed.

Lemma handleStep_shipshape (step : Z) (a : Running) :
  shipshape a → shipshape (handleStep socket step a).
Proof.
  intros Hship. unfold handleStep.
  destruct (Nat.ltb_spec 0
              (length (Sequencer.getActiveChannels
                         (SequencerHook.state (sequencer a)) step)))
    as [Hsome|]; [|done].
  apply sent_shipshape; [|done].
  destruct Hship as [(_ & _ & _ & _ & _ & _ & Hwf & _) _].
  unfold command_ok. simpl. split.
  { intros Hnil. rewrite Hnil in Hsome. simpl in Hsome. lia. }
  split; [apply getActiveChannels_sorted|].
  split; [by apply getActiveChannels_bounded|done].
Qed.

Lemma handleSteps_shipshape (steps : list Z) :
  ∀ a, shipshape a →
       shipshape (foldl (λ a step, handleStep socket step a) a steps).
Proof.
  induction steps as [|step steps IH]; intros a Hship; [done|].
  simpl. apply IH. by apply handleStep_shipshape.
Qed.

Lemma with_sequencer_shipshape (action : SequencerHook.Action) (a : Running) :
  shipshape a →
  shipshape (with_sequencer (SequencerHook.act action (sequencer a)) a).
Proof. intros [Hstep Hwire]. split; [by apply act_in_step|done]. Qed.

Lemma exec_shipshape (ev : Event) (a : Running) :
  event_ok ev → shipshape a → shipshape (exec socket ev a).
Proof.
  intros Hev Hship. destruct ev as [e pf|meta ctrl c s|b|pf|now handle|rs].
  - unfold exec, handleKeyDown.
    destruct (String.eqb (code e) "Space"); simpl.
    { apply (with_sequencer_shipshape (SequencerHook.DoTogglePlayback pf) a
               Hship). }
    destruct (keyChannelMap !! code e) as [channel|] eqn:Hkey; [|done].
    apply sent_shipshape; [|done].
    by destruct (keyChannelMap_range _ _ Hkey).
  - unfold exec, handleClick. destruct (meta || ctrl).
    + apply (with_sequencer_shipshape (SequencerHook.DoTogglePad c s) a Hship).
    + apply sent_shipshape; [|done]. simpl in Hev. by destruct Hev.
  - apply (with_sequencer_shipshape (SequencerHook.DoSetBpm (inject_Z b)) a
             Hship).
  - apply (with_sequencer_shipshape (SequencerHook.DoTogglePlayback pf) a Hship).
  - unfold exec, animationFrame.
    pose proof (with_sequencer_shipshape
                  (SequencerHook.DoFrame now handle) a Hship) as Hframe.
    unfold SequencerHook.act in Hframe.
    destruct (SequencerHook.frame now handle (sequencer a)) as [m steps].
    by apply handleSteps_shipshape.
  - by destruct Hship.
Qed.

Lemma run_shipshape (evs : list Event) :
  ∀ a, Forall event_ok evs → shipshape a → shipshape (run socket evs a).
Proof.
  induction evs as [|ev evs IH]; intros a Hevs Hship; [done|].
  inversion Hevs as [|? ? Hev Hevs']; subst. simpl.
  apply IH; [done|]. by apply exec_shipshape.
Qed.

Lemma started_shipshape : shipshape started.
Proof. split; [apply mounted_in_step|constructor]. Qed.

End WireShape.

Section WireCommands.
Import App.


Lemma acceptingSocket_faithful : faithful WebSocket.acceptingSocket.
Proof. intros m w. by right. Qed.


End WireCommands.

Section IdleFrames.
Import App.

Lemma idle_frame
    (socket : WebSocket.WebSocketMessage → WebSocket.Wire
              → WebSocket.Wire * option string)
    (now : Q) (handle : Z) (a : Running) :
  shipshape a →
  Sequencer.isPlaying (SequencerHook.state (sequencer a)) = false →
  wire (animationFrame socket now handle a) = wire a
  ∧ connection (animationFrame socket now handle a) = connection a
  ∧ SequencerHook.state (sequencer (animationFrame socket now handle a))
    = SequencerHook.state (sequencer a).
Proof.
  intros [(Hplay & _) _] Hidle. rewrite Hidle in Hplay. symmetry in Hplay.
  destruct (exec_stopped (AudioClock.Frame now handle)
              (SequencerHook.clockRef (sequencer a)) Hplay eq_refl)
    as [_ Hlog].
  unfold animationFrame, SequencerHook.frame.
  by rewrite (fired_nothing _ _ Hlog).
Qed.

(** X23. While the sequencer is not playing, frames send nothing: from any
    state the application can reach in which [isPlaying] is false, whatever
    frame requests the page still runs, the wire, the connection and the
    sequencer state stay as they are. *)
Theorem no_playback_no_batches
    (socket : WebSocket.WebSocketMessage → WebSocket.Wire
              → WebSocket.Wire * option string)
    (evs : list Event) (frames : list (Q * Z)) :
  faithful socket → Forall event_ok evs →
  Sequencer.isPlaying
    (SequencerHook.state (sequencer (run socket evs started))) = false →
  let a := run socket evs started in
  let a' := run socket ((λ f, AnimationFrame f.1 f.2) <$> frames) a in
  wire a' = wire a
  ∧ connection a' = connection a
  ∧ SequencerHook.state (sequencer a') = SequencerHook.state (sequencer a).
Proof.
  intros Hsocket Hevs Hidle a a'. subst a'.
  pose proof (run_shipshape socket Hsocket evs started Hevs started_shipshape)
    as Hship.
  fold a in Hship, Hidle. clearbody a.
  revert a Hship Hidle.
  induction frames as [|[now handle] frames IH]; intros a Hship Hidle; [done|].
  destruct (idle_frame socket now handle a Hship Hidle) as (Hw & Hc & Hs).
  assert (Hship' : shipshape (animationFrame socket now handle a)).
  { by apply (exec_shipshape socket Hsocket (AnimationFrame now handle)). }
  assert (Hidle' : Sequencer.isPlaying
                     (SequencerHook.state
                        (sequencer (animationFrame socket now handle a)))
                   = false) by (by rewrite Hs).
  destruct (IH _ Hship' Hidle') as (Hw' & Hc' & Hs').
  rewrite fmap_cons. cbn [fst snd].
  change (run socket (AnimationFrame now handle :: ?evs') a)
    with (run socket evs' (animationFrame socket now handle a)).
  rewrite Hw', Hc', Hs'. by repeat split.
Qed.

(** Pad (0, 0) is on, playback is started and stopped at once, and the
    page then runs the frame request that was pending, and another. *)
Lemma no_playback_no_batches_witness :
  let pf := AudioClock.mkPlatform (Some AudioClock.running) None in
  let evs := [ReadyStateChange WebSocket.OPEN; Click true false 0 0;
              PlayToggle pf; PlayToggle pf] in
  let a := run WebSocket.acceptingSocket evs started in
  wire (run WebSocket.acceptingSocket
            [AnimationFrame 1 1; AnimationFrame 2 2] a)
  = [].
Proof.
  intros pf evs a.
  destruct (no_playback_no_batches WebSocket.acceptingSocket evs [(1%Q, 1); (2%Q, 2)])
    as (Hwire & _ & _);
    [apply acceptingSocket_faithful
    |unfold evs; repeat constructor; unfold Sequencer.in_bounds; lia
    |by vm_compute|].
  exact Hwire.
Defined.

End IdleFrames.

Section StepDuration64Examples.
Import AudioClock.

(** 120 and 121 beats a minute, in binary64. *)
Lemma calculateStepDuration64_decreasing_witness :
  PrimFloat.ltb (calculateStepDuration64 (float_of_Z 121))
                (calculateStepDuration64 (float_of_Z 120)) = true.
Proof. apply (calculateStepDuration64_decreasing 120 121); lia. Defined.

End StepDuration64Examples.
